(** * COBS and COBS/R decoding for a stream of timestamped bytes

    A shallow embedding of [analyzers.py]: the two decoders [decode_cobs] and
    [decode_cobsr] (adapted there from cobs-python) and the frame accumulator
    [CobsXDecoder.decode], followed by the properties the specification
    states about them.

    Conventions of the embedding.
    - A Python [bytes] object is a [list byte]; [ord] of a one-byte item is
      [Byte.to_nat], so a length code is a natural number in 0..255 by
      construction.  The [str] and multi-dimensional inputs that the source
      refuses with [TypeError] and [BufferError] are not values of this type.
    - Python integers are unbounded; [idx], [length] and [end] never go below
      zero in the source ([end = idx + length - 1] is computed after the test
      [length == 0]), so they are natural numbers here.
    - An exception is a value of type [exn]; a function that may raise returns
      an [outcome].
    - The [while True] loops recurse on [len(in_bytes_mv) - idx], which every
      iteration that does not leave the loop makes smaller. *)

From Stdlib Require Import String List Arith Lia Bool.
From Stdlib.Strings Require Import Byte.
From Equations Require Import Equations.
Import ListNotations.

Set Implicit Arguments.

(* ===================================================================== *)
(** * Byte buffers and exceptions *)
(* ===================================================================== *)

Definition bytes := list byte.

(** The exceptions the modelled code can raise.  [DecodeError] carries the
    message it is constructed with; [IndexError] is what [in_bytes_mv[idx]]
    raises out of range and [ValueError] what [bytearray.append] raises for an
    integer outside [range(256)]. *)
Inductive exn : Type :=
| DecodeError (msg : string)
| IndexError
| ValueError.

Inductive outcome : Type :=
| Return (out_bytes : bytes)
| Raise (e : exn).

Definition zero_byte_found : string := "zero byte found in input".
Definition not_enough_input : string := "not enough input bytes for length code".

(** [ord(in_bytes_mv[idx])]. *)
Definition ord (c : byte) : nat := Byte.to_nat c.

(** [mv[i:j]] for non-negative [i] and [j]: the slice is clipped at the end of
    the buffer and empty when [j <= i]. *)
Definition slice (mv : bytes) (i j : nat) : bytes := firstn (j - i) (skipn i mv).

(** [b'\x00' in copy_mv]. *)
Definition contains_zero (mv : bytes) : bool := existsb (Byte.eqb x00) mv.

(** [out_bytes.append(n)] for an integer [n]. *)
Definition bytearray_append (out_bytes : bytes) (n : nat) : option bytes :=
  match Byte.of_nat n with
  | Some b => Some (out_bytes ++ [b])
  | None => None
  end.

Definition inspect {A : Type} (a : A) : {b : A | a = b} := exist _ a eq_refl.

(* ===================================================================== *)
(** * The byte-stuffing codec *)
(* ===================================================================== *)

(** The body of [while True:] in [decode_cobs], entered with the cursor [idx]
    and the output accumulated so far. *)
Equations? cobs_loop (in_bytes_mv : bytes) (idx : nat) (out_bytes : bytes) : outcome
  by wf (length in_bytes_mv - idx) lt :=
  cobs_loop mv idx out with inspect (nth_error mv idx) := {
    | exist _ None _ := Raise IndexError
    | exist _ (Some c) _ with inspect (ord c =? 0) := {
      | exist _ true _ := Raise (DecodeError zero_byte_found)
      | exist _ false Hlength
          with inspect (contains_zero (slice mv (idx + 1) (idx + 1 + ord c - 1))) := {
        | exist _ true _ := Raise (DecodeError zero_byte_found)
        | exist _ false _ with inspect (length mv <? idx + 1 + ord c - 1) := {
          | exist _ true _ := Raise (DecodeError not_enough_input)
          | exist _ false _ with inspect (idx + 1 + ord c - 1 <? length mv) := {
            | exist _ true Hmore :=
                cobs_loop mv (idx + 1 + ord c - 1)
                  (if ord c <? 255
                   then (out ++ slice mv (idx + 1) (idx + 1 + ord c - 1)) ++ [x00]
                   else out ++ slice mv (idx + 1) (idx + 1 + ord c - 1))
            | exist _ false _ :=
                Return (out ++ slice mv (idx + 1) (idx + 1 + ord c - 1)) } } } } }.
Proof.
  assert (ord c <> 0) by (apply Nat.eqb_neq; congruence).
  assert (idx + 1 + ord c - 1 < length mv) by (apply Nat.ltb_lt; congruence).
  lia.
Qed.

Definition decode_cobs (in_bytes : bytes) : outcome :=
  if 0 <? length in_bytes then cobs_loop in_bytes 0 [] else Return [].

(** The body of [while True:] in [decode_cobsr].  It differs from
    [cobs_loop] in the branch [idx > len(in_bytes_mv)] only. *)
Equations? cobsr_loop (in_bytes_mv : bytes) (idx : nat) (out_bytes : bytes) : outcome
  by wf (length in_bytes_mv - idx) lt :=
  cobsr_loop mv idx out with inspect (nth_error mv idx) := {
    | exist _ None _ := Raise IndexError
    | exist _ (Some c) _ with inspect (ord c =? 0) := {
      | exist _ true _ := Raise (DecodeError zero_byte_found)
      | exist _ false Hlength
          with inspect (contains_zero (slice mv (idx + 1) (idx + 1 + ord c - 1))) := {
        | exist _ true _ := Raise (DecodeError zero_byte_found)
        | exist _ false _ with inspect (length mv <? idx + 1 + ord c - 1) := {
          | exist _ true _
              with bytearray_append
                     (out ++ slice mv (idx + 1) (idx + 1 + ord c - 1)) (ord c) := {
            | Some out' := Return out'
            | None := Raise ValueError }
          | exist _ false _ with inspect (idx + 1 + ord c - 1 <? length mv) := {
            | exist _ true Hmore :=
                cobsr_loop mv (idx + 1 + ord c - 1)
                  (if ord c <? 255
                   then (out ++ slice mv (idx + 1) (idx + 1 + ord c - 1)) ++ [x00]
                   else out ++ slice mv (idx + 1) (idx + 1 + ord c - 1))
            | exist _ false _ :=
                Return (out ++ slice mv (idx + 1) (idx + 1 + ord c - 1)) } } } } }.
Proof.
  assert (ord c <> 0) by (apply Nat.eqb_neq; congruence).
  assert (idx + 1 + ord c - 1 < length mv) by (apply Nat.ltb_lt; congruence).
  lia.
Qed.

Definition decode_cobsr (in_bytes : bytes) : outcome :=
  if 0 <? length in_bytes then cobsr_loop in_bytes 0 [] else Return [].

(* ===================================================================== *)
(** * The frame accumulator *)
(* ===================================================================== *)

Definition bytes_eqb (a b : bytes) : bool :=
  if list_eq_dec Byte.byte_eq_dec a b then true else false.

(** The two concrete analyzers, [CobsDecoder] and [CobsrDecoder]; each
    overrides [decode_bytes], which does nothing in the base class. *)
Inductive decoder_class : Type :=
| CobsDecoder
| CobsrDecoder.

(** The payload dictionary of a result frame: [{"data": ...}] for a message
    and [{"error": ...}] for an error. *)
Inductive frame_data : Type :=
| data_data (data : bytes)
| data_error (error : string).

Section Analyzer.

(** Timestamps are opaque values handed over by the byte source. *)
Variable Time : Type.

(** An input frame of the byte source: [frame.data["data"]],
    [frame.start_time] and [frame.end_time]. *)
Record AnalyzerFrame : Type := mkAnalyzerFrame {
  data : bytes;
  start_time : Time;
  end_time : Time
}.

(** A frame built by [decode]: its type name, the two recorded times of the
    analyzer (each may still be [None]) and the payload dictionary. *)
Record ResultFrame : Type := mkResultFrame {
  result_type : string;
  result_start_time : option Time;
  result_end_time : option Time;
  result_data : frame_data
}.

(** The attributes of a [CobsXDecoder] object.  The prefix setting is the
    [NumberSetting] with bounds 0 and 10; it is an integer count (the source
    passes it through [int] where it bounds a slice) and a natural number
    here.  [class] tells which subclass the object is.  An entry of
    [received] is the [bytes] object of one input frame. *)
Record CobsXDecoder : Type := mkCobsXDecoder {
  class : decoder_class;
  number_of_prefix_bytes_after_0_byte : nat;
  received : list bytes;
  frame_start_time : option Time;
  frame_end_time : option Time
}.

(** [__init__]. *)
Definition init (cls : decoder_class) (prefix : nat) : CobsXDecoder :=
  {| class := cls;
     number_of_prefix_bytes_after_0_byte := prefix;
     received := [];
     frame_start_time := None;
     frame_end_time := None |}.

Definition set_received (self : CobsXDecoder) (r : list bytes) : CobsXDecoder :=
  {| class := class self;
     number_of_prefix_bytes_after_0_byte := number_of_prefix_bytes_after_0_byte self;
     received := r;
     frame_start_time := frame_start_time self;
     frame_end_time := frame_end_time self |}.

Definition set_frame_start_time (self : CobsXDecoder) (t : option Time) : CobsXDecoder :=
  {| class := class self;
     number_of_prefix_bytes_after_0_byte := number_of_prefix_bytes_after_0_byte self;
     received := received self;
     frame_start_time := t;
     frame_end_time := frame_end_time self |}.

Definition set_frame_end_time (self : CobsXDecoder) (t : option Time) : CobsXDecoder :=
  {| class := class self;
     number_of_prefix_bytes_after_0_byte := number_of_prefix_bytes_after_0_byte self;
     received := received self;
     frame_start_time := frame_start_time self;
     frame_end_time := t |}.

Definition decode_bytes (self : CobsXDecoder) (x : bytes) : outcome :=
  match class self with
  | CobsDecoder => decode_cobs x
  | CobsrDecoder => decode_cobsr x
  end.

(** The [try ... except DecodeError] block of [decode]: the value of
    [retval] after it, or the exception it lets through. *)
Definition try_decode_bytes (self : CobsXDecoder) : exn + option ResultFrame :=
  match decode_bytes self (concat (received self)) with
  | Return data =>
      inr (Some (mkResultFrame "Message" (frame_start_time self)
                   (frame_end_time self) (data_data data)))
  | Raise (DecodeError msg) =>
      inr (Some (mkResultFrame "Error" (frame_start_time self)
                   (frame_end_time self) (data_error msg)))
  | Raise e => inl e
  end.

(** [if self.frame_start_time is None: self.frame_start_time = frame.start_time]. *)
Definition record_start_time (self : CobsXDecoder) (frame : AnalyzerFrame) : CobsXDecoder :=
  match frame_start_time self with
  | None => set_frame_start_time self (Some (start_time frame))
  | Some _ => self
  end.

(** [if len(self.received) >= k: del self.received[:int(k)]], with [k] the
    prefix setting. *)
Definition strip_prefix (self : CobsXDecoder) : CobsXDecoder :=
  if number_of_prefix_bytes_after_0_byte self <=? length (received self)
  then set_received self
         (skipn (number_of_prefix_bytes_after_0_byte self) (received self))
  else self.

(** [CobsXDecoder.decode]: the object after the call, and either the
    exception that left the call or the returned [retval]. *)
Definition decode (self : CobsXDecoder) (frame : AnalyzerFrame)
  : CobsXDecoder * (exn + option ResultFrame) :=
  let self := record_start_time self frame in
  if bytes_eqb (data frame) [x00] then
    let self := strip_prefix self in
    match (match received self with
           | [] => inr None
           | _ :: _ => try_decode_bytes self
           end) with
    | inl e => (self, inl e)
    | inr retval =>
        (set_frame_start_time (set_received self []) (Some (start_time frame)),
         inr retval)
    end
  else
    (set_frame_end_time (set_received self (received self ++ [data frame]))
       (Some (end_time frame)),
     inr None).

(** The analyzer after a sequence of input frames, each handed to [decode]
    in turn. *)
Definition feed (self : CobsXDecoder) (frames : list AnalyzerFrame) : CobsXDecoder :=
  fold_left (fun s frame => fst (decode s frame)) frames self.

(** ** Positions in the input stream, for the timing properties *)

Definition is_delimiter (frame : AnalyzerFrame) : bool :=
  bytes_eqb (data frame) [x00].

(** The most recent delimiter of the stream. *)
Definition last_delimiter (frames : list AnalyzerFrame) : option AnalyzerFrame :=
  find is_delimiter (rev frames).

(** The most recent frame of the stream that is not a delimiter. *)
Definition last_buffered (frames : list AnalyzerFrame) : option AnalyzerFrame :=
  find (fun f => negb (is_delimiter f)) (rev frames).

(** The frames that follow the most recent delimiter (all of them when the
    stream has no delimiter). *)
Definition since_last_delimiter (frames : list AnalyzerFrame) : list AnalyzerFrame :=
  fold_left (fun acc f => if is_delimiter f then [] else acc ++ [f]) frames [].

(** Whether a result frame reports the given outcome of [decode_bytes]. *)
Definition reports (fr : ResultFrame) (o : outcome) : Prop :=
  match o with
  | Return data => result_type fr = "Message"%string /\ result_data fr = data_data data
  | Raise (DecodeError msg) =>
      result_type fr = "Error"%string /\ result_data fr = data_error msg
  | Raise _ => False
  end.

(** [decodes_buffer self frame buf]: the call [decode self frame] treats
    [buf] as the buffer of the frame that ends here.  It returns no frame when
    [buf] is empty, and otherwise a frame that reports what [decode_bytes]
    makes of the joined entries of [buf]. *)
Definition decodes_buffer (self : CobsXDecoder) (frame : AnalyzerFrame)
    (buf : list bytes) : Prop :=
  match buf with
  | [] => snd (decode self frame) = inr None
  | _ :: _ =>
      exists fr,
        snd (decode self frame) = inr (Some fr) /\
        reports fr (decode_bytes self (concat buf))
  end.

End Analyzer.

Arguments init {Time} cls prefix.

Unset Implicit Arguments.

(* ===================================================================== *)
(** * Auxiliary notions for the properties of the codec *)
(* ===================================================================== *)

(** What one pass through the loop body does, as a value: the five ways the
    body of [decode_cobs] and [decode_cobsr] can end.  The two loops are
    proved below to act on this value as their source text says. *)
Inductive iteration : Type :=
| it_index_error
| it_zero_byte
| it_overrun (out_bytes : bytes) (c : byte)
| it_more (idx : nat) (out_bytes : bytes)
| it_end (out_bytes : bytes).

Definition iterate (mv : bytes) (idx : nat) (out : bytes) : iteration :=
  match nth_error mv idx with
  | None => it_index_error
  | Some c =>
      if ord c =? 0 then it_zero_byte
      else
        let copy_mv := slice mv (idx + 1) (idx + 1 + ord c - 1) in
        if contains_zero copy_mv then it_zero_byte
        else if length mv <? idx + 1 + ord c - 1 then it_overrun (out ++ copy_mv) c
        else if idx + 1 + ord c - 1 <? length mv
             then it_more (idx + 1 + ord c - 1)
                    (if ord c <? 255 then (out ++ copy_mv) ++ [x00] else out ++ copy_mv)
             else it_end (out ++ copy_mv)
  end.

(** [at_cursor mv idx out]: decoding [mv] arrives at the top of the loop body
    with the cursor at [idx] and the output [out].  The loop is entered at
    cursor 0 with no output when the buffer is not empty, and goes round again
    after a chunk that has a non-zero length code and no zero byte and that
    ends before the end of the buffer. *)
Inductive at_cursor (mv : bytes) : nat -> bytes -> Prop :=
| at_cursor_start : 0 < length mv -> at_cursor mv 0 []
| at_cursor_next idx out c :
    at_cursor mv idx out ->
    nth_error mv idx = Some c ->
    ord c <> 0 ->
    contains_zero (slice mv (idx + 1) (idx + 1 + ord c - 1)) = false ->
    idx + 1 + ord c - 1 < length mv ->
    at_cursor mv (idx + 1 + ord c - 1)
      (if ord c <? 255
       then (out ++ slice mv (idx + 1) (idx + 1 + ord c - 1)) ++ [x00]
       else out ++ slice mv (idx + 1) (idx + 1 + ord c - 1)).

(** The output of a decoder with [pre] put in front of it. *)
Definition prepend (pre : bytes) (o : outcome) : outcome :=
  match o with
  | Return out => Return (pre ++ out)
  | Raise e => Raise e
  end.

(** ** The reference encoder and correct stuffings

    The repository decodes only; the round-trip law is stated against a
    reference encoder.  The decoders were adapted from cobs-python, and the
    encoder here follows its [encode]. *)

(** The byte with the given code point. *)
Definition chr (n : nat) : byte :=
  match Byte.of_nat n with
  | Some b => b
  | None => x00
  end.

(** Modelled from the spec: the reference COBS encoder, which the repository
    does not contain.  The loop scans the payload once; [run] holds the bytes
    since the last emitted block ([in_bytes_mv[search_start_idx:idx]]) and
    [final_zero] tells whether the last block was closed by a zero byte.  A
    zero byte closes the block with the length code [len(run) + 1]; the 254th
    non-zero byte of a run closes it with the length code 0xFF.  At the end of
    the payload the bytes left over are emitted as a last block, unless
    nothing is left over right after a block with code 0xFF. *)
Fixpoint encode_loop (final_zero : bool) (run : bytes) (in_bytes : bytes) : bytes :=
  match in_bytes with
  | [] =>
      if negb (length run =? 0) || final_zero
      then chr (length run + 1) :: run
      else []
  | in_char :: rest =>
      if Byte.eqb in_char x00
      then (chr (length run + 1) :: run) ++ encode_loop true [] rest
      else if length run =? 253
           then (xff :: run ++ [in_char]) ++ encode_loop false [] rest
           else encode_loop final_zero (run ++ [in_char]) rest
  end.

(** Modelled from the spec: the entry point of the reference encoder. *)
Definition encode_cobs (in_bytes : bytes) : bytes := encode_loop true [] in_bytes.

(** Modelled from the spec: what a correct COBS stuffing of a payload is, block
    by block.  A block is a length code followed by that many minus one
    non-zero bytes.  A code below 0xFF stands for its bytes and, unless it is
    the last block, a zero byte after them; the code 0xFF stands for its 254
    bytes alone.  Both conventions for a payload that ends with a full block
    are stuffings: ending on the block with code 0xFF, and adding a block
    with code 0x01 after it. *)
Inductive cobs_stuffing : bytes -> bytes -> Prop :=
| stuffing_last chunk :
    contains_zero chunk = false -> length chunk <= 253 ->
    cobs_stuffing chunk (chr (length chunk + 1) :: chunk)
| stuffing_zero chunk payload stuffed :
    contains_zero chunk = false -> length chunk <= 253 ->
    cobs_stuffing payload stuffed ->
    cobs_stuffing (chunk ++ x00 :: payload) ((chr (length chunk + 1) :: chunk) ++ stuffed)
| stuffing_full_last chunk :
    contains_zero chunk = false -> length chunk = 254 ->
    cobs_stuffing chunk (xff :: chunk)
| stuffing_full chunk payload stuffed :
    contains_zero chunk = false -> length chunk = 254 ->
    cobs_stuffing payload stuffed ->
    cobs_stuffing (chunk ++ payload) ((xff :: chunk) ++ stuffed).

(* ===================================================================== *)
(** * Tactics *)
(* ===================================================================== *)

(** [funelim] leaves the tests of the branch taken as equations in the
    context; [take_branch] replays them in the goal. *)
Ltac take_branch :=
  repeat match goal with
         | H : _ = cobs_loop _ _ _ |- _ => clear H
         | H : _ = cobsr_loop _ _ _ |- _ => clear H
         | H : @eq (sigma _) _ _ |- _ => clear H
         | H : nth_error _ _ = _ |- _ => rewrite H; clear H
         | H : (_ =? _) = _ |- _ => rewrite H; clear H
         | H : (_ <? _) = _ |- _ => rewrite H; clear H
         | H : contains_zero _ = _ |- _ => rewrite H; clear H
         end.

(** [split_iterate H] goes through the tests of [iterate] in the hypothesis
    [H : iterate mv idx out = ...] and keeps the branches that agree with
    its right-hand side. *)
Ltac split_iterate H :=
  unfold iterate in H;
  repeat match type of H with
         | context [match nth_error ?mv ?i with _ => _ end] =>
             let E := fresh "Hnth" in destruct (nth_error mv i) eqn:E
         | context [if ?a =? ?b then _ else _] =>
             let E := fresh "Hcode" in
             destruct (a =? b) eqn:E;
             [apply Nat.eqb_eq in E | apply Nat.eqb_neq in E]
         | context [if contains_zero ?s then _ else _] =>
             let E := fresh "Hzero" in destruct (contains_zero s) eqn:E
         | context [if ?a <? ?b then it_overrun _ _ else _] =>
             let E := fresh "Hover" in
             destruct (a <? b) eqn:E;
             [apply Nat.ltb_lt in E | apply Nat.ltb_ge in E]
         | context [if ?a <? ?b then it_more _ _ else _] =>
             let E := fresh "Hmore" in
             destruct (a <? b) eqn:E;
             [apply Nat.ltb_lt in E | apply Nat.ltb_ge in E]
         end;
  try discriminate H.

(** [decide_ltb] settles a goal whose [<?] tests are decided by linear
    arithmetic. *)
Ltac decide_ltb :=
  repeat match goal with
         | |- context [?a <? ?b] => destruct (Nat.ltb_spec a b)
         end;
  try reflexivity; try lia.

(* ===================================================================== *)
(** * The loops, one iteration at a time *)
(* ===================================================================== *)

Lemma cobs_loop_iterate mv idx out :
  cobs_loop mv idx out =
  match iterate mv idx out with
  | it_index_error => Raise IndexError
  | it_zero_byte => Raise (DecodeError zero_byte_found)
  | it_overrun _ _ => Raise (DecodeError not_enough_input)
  | it_more idx' out' => cobs_loop mv idx' out'
  | it_end out' => Return out'
  end.
Proof.
  funelim (cobs_loop mv idx out); unfold iterate; take_branch; reflexivity.
Qed.

Lemma bytearray_append_ord out c : bytearray_append out (ord c) = Some (out ++ [c]).
Proof.
  unfold bytearray_append, ord. rewrite Byte.of_to_nat. reflexivity.
Qed.

Lemma cobsr_loop_iterate mv idx out :
  cobsr_loop mv idx out =
  match iterate mv idx out with
  | it_index_error => Raise IndexError
  | it_zero_byte => Raise (DecodeError zero_byte_found)
  | it_overrun out' c => Return (out' ++ [c])
  | it_more idx' out' => cobsr_loop mv idx' out'
  | it_end out' => Return out'
  end.
Proof.
  funelim (cobsr_loop mv idx out); unfold iterate; take_branch;
    try reflexivity.
  all: match goal with
       | H : bytearray_append _ (ord _) = _ |- _ =>
           rewrite bytearray_append_ord in H; inversion H; reflexivity
       end.
Qed.

(** ** Reading an iteration backwards and forwards *)

Lemma iterate_more_inv mv idx out idx' out' :
  iterate mv idx out = it_more idx' out' ->
  exists c,
    nth_error mv idx = Some c /\ ord c <> 0 /\
    contains_zero (slice mv (idx + 1) (idx + 1 + ord c - 1)) = false /\
    idx + 1 + ord c - 1 < length mv /\
    idx' = idx + 1 + ord c - 1 /\
    out' = (if ord c <? 255
            then (out ++ slice mv (idx + 1) (idx + 1 + ord c - 1)) ++ [x00]
            else out ++ slice mv (idx + 1) (idx + 1 + ord c - 1)).
Proof.
  intros H. split_iterate H. inversion H; subst. eauto 10.
Qed.

Lemma iterate_more_intro mv idx out c :
  nth_error mv idx = Some c -> ord c <> 0 ->
  contains_zero (slice mv (idx + 1) (idx + 1 + ord c - 1)) = false ->
  idx + 1 + ord c - 1 < length mv ->
  iterate mv idx out =
  it_more (idx + 1 + ord c - 1)
    (if ord c <? 255
     then (out ++ slice mv (idx + 1) (idx + 1 + ord c - 1)) ++ [x00]
     else out ++ slice mv (idx + 1) (idx + 1 + ord c - 1)).
Proof.
  intros Hnth Hcode Hzero Hlt. unfold iterate. rewrite Hnth.
  apply Nat.eqb_neq in Hcode. rewrite Hcode, Hzero.
  replace (length mv <? idx + 1 + ord c - 1) with false
    by (symmetry; apply Nat.ltb_ge; lia).
  apply Nat.ltb_lt in Hlt. rewrite Hlt. reflexivity.
Qed.

Lemma iterate_overrun_inv mv idx out out' c :
  iterate mv idx out = it_overrun out' c ->
  nth_error mv idx = Some c /\ ord c <> 0 /\
  contains_zero (slice mv (idx + 1) (idx + 1 + ord c - 1)) = false /\
  length mv < idx + 1 + ord c - 1 /\
  out' = out ++ slice mv (idx + 1) (idx + 1 + ord c - 1).
Proof.
  intros H. split_iterate H. inversion H; subst. auto.
Qed.

Lemma iterate_overrun_intro mv idx out c :
  nth_error mv idx = Some c -> ord c <> 0 ->
  contains_zero (slice mv (idx + 1) (idx + 1 + ord c - 1)) = false ->
  length mv < idx + 1 + ord c - 1 ->
  iterate mv idx out = it_overrun (out ++ slice mv (idx + 1) (idx + 1 + ord c - 1)) c.
Proof.
  intros Hnth Hcode Hzero Hlt. unfold iterate. rewrite Hnth.
  apply Nat.eqb_neq in Hcode. rewrite Hcode, Hzero.
  apply Nat.ltb_lt in Hlt. rewrite Hlt. reflexivity.
Qed.

Lemma iterate_end_intro mv idx out c :
  nth_error mv idx = Some c -> ord c <> 0 ->
  contains_zero (slice mv (idx + 1) (idx + 1 + ord c - 1)) = false ->
  idx + 1 + ord c - 1 = length mv ->
  iterate mv idx out = it_end (out ++ slice mv (idx + 1) (idx + 1 + ord c - 1)).
Proof.
  intros Hnth Hcode Hzero Hlt. unfold iterate. rewrite Hnth.
  apply Nat.eqb_neq in Hcode. rewrite Hcode, Hzero, Hlt.
  rewrite Nat.ltb_irrefl. reflexivity.
Qed.

Lemma iterate_zero_intro mv idx out c :
  nth_error mv idx = Some c ->
  ord c = 0 \/ contains_zero (slice mv (idx + 1) (idx + 1 + ord c - 1)) = true ->
  iterate mv idx out = it_zero_byte.
Proof.
  intros Hnth H. unfold iterate. rewrite Hnth.
  destruct (ord c =? 0) eqn:Hcode; [reflexivity|].
  destruct H as [H | H]; [apply Nat.eqb_neq in Hcode; contradiction|].
  rewrite H. reflexivity.
Qed.

Lemma iterate_index_error_inv mv idx out :
  iterate mv idx out = it_index_error -> length mv <= idx.
Proof.
  intros H. split_iterate H. apply nth_error_None. assumption.
Qed.

(** Induction along the iterations of the loop on a buffer. *)
Lemma loop_ind (mv : bytes) (P : nat -> bytes -> Prop) :
  (forall idx out,
      (forall idx' out', iterate mv idx out = it_more idx' out' -> P idx' out') ->
      P idx out) ->
  forall idx out, P idx out.
Proof.
  intros step.
  assert (bounded : forall n idx out, length mv - idx <= n -> P idx out).
  { induction n as [|n IH]; intros idx out Hn; apply step; intros idx' out' Hmore;
      apply iterate_more_inv in Hmore;
      destruct Hmore as (c & _ & Hc & _ & Hlt & -> & _).
    - lia.
    - apply IH. lia. }
  intros idx out. apply (bounded (length mv - idx)). lia.
Qed.

(** ** Iterations on a longer buffer and with a longer output *)

Lemma skipn_app_length (pre mv : bytes) i :
  skipn (length pre + i) (pre ++ mv) = skipn i mv.
Proof.
  induction pre as [|b pre IH]; simpl; auto.
Qed.

Lemma slice_app_length (pre mv : bytes) i j :
  slice (pre ++ mv) (length pre + i) (length pre + j) = slice mv i j.
Proof.
  unfold slice. rewrite skipn_app_length. f_equal. lia.
Qed.

Lemma nth_error_app_length (pre mv : bytes) i :
  nth_error (pre ++ mv) (length pre + i) = nth_error mv i.
Proof.
  induction pre as [|b pre IH]; simpl; auto.
Qed.

Lemma iterate_shift pre mv idx out :
  iterate (pre ++ mv) (length pre + idx) out =
  match iterate mv idx out with
  | it_more idx' out' => it_more (length pre + idx') out'
  | it => it
  end.
Proof.
  unfold iterate. rewrite nth_error_app_length.
  destruct (nth_error mv idx) as [c|]; [|reflexivity].
  destruct (ord c =? 0) eqn:Hcode; [reflexivity|]. apply Nat.eqb_neq in Hcode.
  replace (length pre + idx + 1) with (length pre + (idx + 1)) by lia.
  replace (length pre + (idx + 1) + ord c - 1)
    with (length pre + (idx + 1 + ord c - 1)) by lia.
  rewrite slice_app_length, length_app.
  destruct (contains_zero _); [reflexivity|].
  decide_ltb.
Qed.

Lemma iterate_app_out mv idx o1 o2 :
  iterate mv idx (o1 ++ o2) =
  match iterate mv idx o2 with
  | it_overrun out' c => it_overrun (o1 ++ out') c
  | it_more idx' out' => it_more idx' (o1 ++ out')
  | it_end out' => it_end (o1 ++ out')
  | it => it
  end.
Proof.
  unfold iterate.
  destruct (nth_error mv idx) as [c|]; [|reflexivity].
  destruct (ord c =? 0); [reflexivity|].
  destruct (contains_zero _); [reflexivity|].
  destruct (_ <? _); [rewrite app_assoc; reflexivity|].
  destruct (_ <? _); [|rewrite app_assoc; reflexivity].
  destruct (_ <? _); rewrite ?app_assoc; reflexivity.
Qed.

(** ** What the two loops share

    Everything below holds of any function that treats an iteration as the
    two loops do and differs from them in the overrun branch at most. *)
Section Loops.

Variable loop : bytes -> nat -> bytes -> outcome.
Variable on_overrun : bytes -> byte -> outcome.

Hypothesis loop_iterate : forall mv idx out,
  loop mv idx out =
  match iterate mv idx out with
  | it_index_error => Raise IndexError
  | it_zero_byte => Raise (DecodeError zero_byte_found)
  | it_overrun out' c => on_overrun out' c
  | it_more idx' out' => loop mv idx' out'
  | it_end out' => Return out'
  end.

Hypothesis on_overrun_prepend : forall o1 o2 c,
  on_overrun (o1 ++ o2) c = prepend o1 (on_overrun o2 c).

Hypothesis on_overrun_exn : forall out c e,
  on_overrun out c = Raise e -> exists msg, e = DecodeError msg.

Lemma at_cursor_lt mv idx out : at_cursor mv idx out -> idx < length mv.
Proof.
  destruct 1; assumption.
Qed.

Lemma loop_at_cursor mv idx out :
  at_cursor mv idx out -> loop mv 0 [] = loop mv idx out.
Proof.
  induction 1 as [|idx out c Hat IH Hnth Hcode Hzero Hlt]; [reflexivity|].
  rewrite IH, (loop_iterate mv idx out).
  rewrite (iterate_more_intro mv idx out c Hnth Hcode Hzero Hlt). reflexivity.
Qed.

Lemma loop_raises_decode_error mv idx out e :
  idx < length mv -> loop mv idx out = Raise e -> exists msg, e = DecodeError msg.
Proof.
  revert idx out. apply (loop_ind mv (fun idx out =>
    idx < length mv -> loop mv idx out = Raise e -> exists msg, e = DecodeError msg)).
  intros idx out IH Hlt. rewrite loop_iterate.
  destruct (iterate mv idx out) as [| |out' c|idx' out'|out'] eqn:Hit; intros H.
  - apply iterate_index_error_inv in Hit. lia.
  - inversion H. eauto.
  - eapply on_overrun_exn; eassumption.
  - apply (IH idx' out'); auto.
    apply iterate_more_inv in Hit. destruct Hit as (c & _ & _ & _ & Hlt' & -> & _).
    assumption.
  - discriminate H.
Qed.

Lemma loop_shift pre mv idx out :
  loop (pre ++ mv) (length pre + idx) out = loop mv idx out.
Proof.
  revert idx out. apply (loop_ind mv (fun idx out =>
    loop (pre ++ mv) (length pre + idx) out = loop mv idx out)).
  intros idx out IH.
  rewrite (loop_iterate (pre ++ mv)), (loop_iterate mv), iterate_shift.
  destruct (iterate mv idx out) eqn:Hit; try reflexivity.
  apply IH. reflexivity.
Qed.

Lemma loop_app_out mv idx o1 o2 :
  loop mv idx (o1 ++ o2) = prepend o1 (loop mv idx o2).
Proof.
  revert idx o2. apply (loop_ind mv (fun idx o2 =>
    loop mv idx (o1 ++ o2) = prepend o1 (loop mv idx o2))).
  intros idx o2 IH.
  rewrite (loop_iterate mv idx (o1 ++ o2)), (loop_iterate mv idx o2), iterate_app_out.
  destruct (iterate mv idx o2) eqn:Hit; try reflexivity.
  - apply on_overrun_prepend.
  - apply IH. reflexivity.
Qed.

(** From a cursor on, the loop is the loop on the rest of the buffer, with
    the output so far in front. *)
Lemma loop_tail mv idx out :
  idx <= length mv ->
  loop mv idx out = prepend out (loop (skipn idx mv) 0 []).
Proof.
  intros Hidx.
  assert (E : loop mv idx out =
              loop (firstn idx mv ++ skipn idx mv) (length (firstn idx mv) + 0) out).
  { rewrite firstn_skipn. f_equal. rewrite length_firstn. lia. }
  rewrite E, loop_shift, <- loop_app_out, app_nil_r. reflexivity.
Qed.

Lemma slice_block c chunk rest :
  ord c = length chunk + 1 ->
  slice (c :: chunk ++ rest) (0 + 1) (0 + 1 + ord c - 1) = chunk.
Proof.
  intros Hc. unfold slice. simpl skipn.
  replace (0 + 1 + ord c - 1 - (0 + 1)) with (length chunk + 0) by lia.
  rewrite firstn_app_2. simpl. apply app_nil_r.
Qed.

Lemma loop_block_more c chunk rest :
  ord c = length chunk + 1 -> contains_zero chunk = false -> rest <> [] ->
  loop (c :: chunk ++ rest) 0 [] =
  prepend (chunk ++ (if ord c <? 255 then [x00] else [])) (loop rest 0 []).
Proof.
  intros Hc Hzero Hrest. rewrite loop_iterate.
  rewrite (iterate_more_intro (c :: chunk ++ rest) 0 [] c);
    rewrite ?slice_block by assumption; try reflexivity; try assumption; try lia.
  - replace (0 + 1 + ord c - 1) with (length (c :: chunk) + 0) by (simpl; lia).
    change (c :: chunk ++ rest) with ((c :: chunk) ++ rest). rewrite loop_shift.
    rewrite <- loop_app_out. f_equal.
    destruct (ord c <? 255); simpl; rewrite ?app_nil_r; reflexivity.
  - simpl. rewrite length_app. destruct rest; [contradiction|simpl; lia].
Qed.

Lemma loop_block_end c chunk :
  ord c = length chunk + 1 -> contains_zero chunk = false ->
  loop (c :: chunk) 0 [] = Return chunk.
Proof.
  intros Hc Hzero. rewrite loop_iterate.
  pose proof (slice_block c chunk [] Hc) as Hslice. rewrite app_nil_r in Hslice.
  rewrite (iterate_end_intro (c :: chunk) 0 [] c);
    rewrite ?Hslice; try reflexivity; try assumption; simpl; lia.
Qed.

End Loops.

(** ** The two loops as instances *)

Lemma cobs_overrun_prepend (o1 o2 : bytes) (c : byte) :
  Raise (DecodeError not_enough_input) = prepend o1 (Raise (DecodeError not_enough_input)).
Proof. reflexivity. Qed.

Lemma cobsr_overrun_prepend (o1 o2 : bytes) (c : byte) :
  Return ((o1 ++ o2) ++ [c]) = prepend o1 (Return (o2 ++ [c])).
Proof. simpl. rewrite app_assoc. reflexivity. Qed.

Lemma cobs_overrun_exn (out : bytes) (c : byte) e :
  Raise (DecodeError not_enough_input) = Raise e -> exists msg, e = DecodeError msg.
Proof. intros H. inversion H. eauto. Qed.

Lemma cobsr_overrun_exn (out : bytes) (c : byte) e :
  Return (out ++ [c]) = Raise e -> exists msg, e = DecodeError msg.
Proof. discriminate. Qed.

Lemma decode_cobs_nonempty mv : mv <> [] -> decode_cobs mv = cobs_loop mv 0 [].
Proof. destruct mv; [contradiction|reflexivity]. Qed.

Lemma decode_cobsr_nonempty mv : mv <> [] -> decode_cobsr mv = cobsr_loop mv 0 [].
Proof. destruct mv; [contradiction|reflexivity]. Qed.

Lemma at_cursor_nonempty mv idx out : at_cursor mv idx out -> mv <> [].
Proof.
  intros H. apply at_cursor_lt in H. destruct mv; [simpl in H; lia|discriminate].
Qed.

Lemma decode_cobs_at_cursor mv idx out :
  at_cursor mv idx out -> decode_cobs mv = cobs_loop mv idx out.
Proof.
  intros H. rewrite decode_cobs_nonempty by (eapply at_cursor_nonempty; eassumption).
  exact (loop_at_cursor cobs_loop _ cobs_loop_iterate mv idx out H).
Qed.

Lemma decode_cobsr_at_cursor mv idx out :
  at_cursor mv idx out -> decode_cobsr mv = cobsr_loop mv idx out.
Proof.
  intros H. rewrite decode_cobsr_nonempty by (eapply at_cursor_nonempty; eassumption).
  exact (loop_at_cursor cobsr_loop _ cobsr_loop_iterate mv idx out H).
Qed.

(** Neither decoder lets an exception other than [DecodeError] escape. *)
Lemma decode_cobs_raises mv e :
  decode_cobs mv = Raise e -> exists msg, e = DecodeError msg.
Proof.
  destruct mv as [|b mv]; [discriminate|].
  rewrite decode_cobs_nonempty by discriminate.
  apply (loop_raises_decode_error cobs_loop _ cobs_loop_iterate cobs_overrun_exn).
  simpl; lia.
Qed.

Lemma decode_cobsr_raises mv e :
  decode_cobsr mv = Raise e -> exists msg, e = DecodeError msg.
Proof.
  destruct mv as [|b mv]; [discriminate|].
  rewrite decode_cobsr_nonempty by discriminate.
  apply (loop_raises_decode_error cobsr_loop _ cobsr_loop_iterate cobsr_overrun_exn).
  simpl; lia.
Qed.

Lemma decode_cobs_block_more c chunk rest :
  ord c = length chunk + 1 -> contains_zero chunk = false -> rest <> [] ->
  decode_cobs (c :: chunk ++ rest) =
  prepend (chunk ++ (if ord c <? 255 then [x00] else [])) (decode_cobs rest).
Proof.
  intros Hc Hzero Hrest.
  rewrite (decode_cobs_nonempty rest) by assumption.
  rewrite decode_cobs_nonempty by discriminate.
  apply (loop_block_more cobs_loop _ cobs_loop_iterate cobs_overrun_prepend);
    assumption.
Qed.

Lemma decode_cobs_block_end c chunk :
  ord c = length chunk + 1 -> contains_zero chunk = false ->
  decode_cobs (c :: chunk) = Return chunk.
Proof.
  intros Hc Hzero. rewrite decode_cobs_nonempty by discriminate.
  apply (loop_block_end cobs_loop _ cobs_loop_iterate); assumption.
Qed.

Lemma skipn_nonempty (mv : bytes) idx : idx < length mv -> skipn idx mv <> [].
Proof.
  intros Hlt Hnil. apply (f_equal (@length byte)) in Hnil.
  rewrite length_skipn in Hnil. simpl in Hnil. lia.
Qed.

Lemma decode_cobs_tail mv idx out :
  at_cursor mv idx out ->
  forall idx' out', iterate mv idx out = it_more idx' out' ->
  decode_cobs mv = prepend out' (decode_cobs (skipn idx' mv)).
Proof.
  intros Hat idx' out' Hit.
  rewrite (decode_cobs_at_cursor mv idx out Hat), cobs_loop_iterate, Hit.
  apply iterate_more_inv in Hit. destruct Hit as (c & _ & _ & _ & Hlt & Hidx & _).
  rewrite (decode_cobs_nonempty (skipn idx' mv)) by (apply skipn_nonempty; lia).
  apply (loop_tail cobs_loop _ cobs_loop_iterate cobs_overrun_prepend). lia.
Qed.

Lemma decode_cobsr_tail mv idx out :
  at_cursor mv idx out ->
  forall idx' out', iterate mv idx out = it_more idx' out' ->
  decode_cobsr mv = prepend out' (decode_cobsr (skipn idx' mv)).
Proof.
  intros Hat idx' out' Hit.
  rewrite (decode_cobsr_at_cursor mv idx out Hat), cobsr_loop_iterate, Hit.
  apply iterate_more_inv in Hit. destruct Hit as (c & _ & _ & _ & Hlt & Hidx & _).
  rewrite (decode_cobsr_nonempty (skipn idx' mv)) by (apply skipn_nonempty; lia).
  apply (loop_tail cobsr_loop _ cobsr_loop_iterate cobsr_overrun_prepend). lia.
Qed.

Lemma loops_agree mv idx out m :
  cobs_loop mv idx out = Return m -> cobsr_loop mv idx out = Return m.
Proof.
  revert idx out. apply (loop_ind mv (fun idx out =>
    cobs_loop mv idx out = Return m -> cobsr_loop mv idx out = Return m)).
  intros idx out IH. rewrite cobs_loop_iterate, cobsr_loop_iterate.
  destruct (iterate mv idx out) eqn:Hit; try discriminate; auto.
Qed.

Lemma cobsr_loop_never_truncated mv idx out :
  cobsr_loop mv idx out <> Raise (DecodeError not_enough_input).
Proof.
  revert idx out. apply (loop_ind mv (fun idx out =>
    cobsr_loop mv idx out <> Raise (DecodeError not_enough_input))).
  intros idx out IH. rewrite cobsr_loop_iterate.
  destruct (iterate mv idx out) eqn:Hit; try discriminate; auto.
Qed.

Lemma cobs_loop_truncated_inv mv idx out :
  at_cursor mv idx out ->
  cobs_loop mv idx out = Raise (DecodeError not_enough_input) ->
  exists idx' out' c,
    at_cursor mv idx' out' /\ nth_error mv idx' = Some c /\ ord c <> 0 /\
    contains_zero (slice mv (idx' + 1) (idx' + 1 + ord c - 1)) = false /\
    length mv < idx' + 1 + ord c - 1.
Proof.
  revert idx out. apply (loop_ind mv (fun idx out =>
    at_cursor mv idx out ->
    cobs_loop mv idx out = Raise (DecodeError not_enough_input) ->
    exists idx' out' c,
      at_cursor mv idx' out' /\ nth_error mv idx' = Some c /\ ord c <> 0 /\
      contains_zero (slice mv (idx' + 1) (idx' + 1 + ord c - 1)) = false /\
      length mv < idx' + 1 + ord c - 1)).
  intros idx out IH Hat. rewrite cobs_loop_iterate.
  destruct (iterate mv idx out) as [| |out' c|idx' out'|out'] eqn:Hit;
    try discriminate; intros H.
  - apply iterate_overrun_inv in Hit. destruct Hit as (Hnth & Hcode & Hzero & Hlt & _).
    exists idx, out, c. auto.
  - apply (IH idx' out' eq_refl); [|assumption].
    apply iterate_more_inv in Hit.
    destruct Hit as (c & Hnth & Hcode & Hzero & Hlt & -> & ->).
    apply at_cursor_next; assumption.
Qed.

(* ===================================================================== *)
(** * The reference encoder produces a correct stuffing *)
(* ===================================================================== *)

Lemma ord_chr n : n <= 255 -> ord (chr n) = n.
Proof.
  intros Hn. unfold ord, chr. destruct (Byte.of_nat n) as [b|] eqn:E.
  - apply Byte.to_of_nat. assumption.
  - apply Byte.of_nat_None_iff in E. lia.
Qed.

Lemma byte_eqb_sym a b : Byte.eqb a b = Byte.eqb b a.
Proof.
  destruct (Byte.eqb a b) eqn:Eab, (Byte.eqb b a) eqn:Eba; try reflexivity.
  - apply Byte.byte_dec_bl in Eab. subst. rewrite Byte.byte_dec_lb in Eba; auto.
  - apply Byte.byte_dec_bl in Eba. subst. rewrite Byte.byte_dec_lb in Eab; auto.
Qed.

Lemma contains_zero_app a b :
  contains_zero (a ++ b) = contains_zero a || contains_zero b.
Proof. apply existsb_app. Qed.

Lemma ord_zero_iff c : ord c = 0 <-> c = x00.
Proof.
  split; intros H; [|subst; reflexivity].
  pose proof (Byte.of_to_nat c) as E. unfold ord in H. rewrite H in E.
  simpl in E. congruence.
Qed.

Lemma cobs_stuffing_nonempty payload stuffed :
  cobs_stuffing payload stuffed -> stuffed <> [].
Proof. destruct 1; discriminate. Qed.

(** A stuffed buffer holds no zero byte. *)
Lemma cobs_stuffing_no_zero payload stuffed :
  cobs_stuffing payload stuffed -> contains_zero stuffed = false.
Proof.
  assert (code : forall n, n <= 253 -> Byte.eqb x00 (chr (n + 1)) = false).
  { intros n Hn. destruct (Byte.eqb x00 (chr (n + 1))) eqn:E; [|reflexivity].
    apply Byte.byte_dec_bl in E. symmetry in E. apply ord_zero_iff in E.
    rewrite ord_chr in E by lia. lia. }
  induction 1; rewrite ?contains_zero_app; simpl; rewrite ?code by assumption;
    rewrite ?IHcobs_stuffing; simpl; rewrite ?orb_false_r; assumption.
Qed.

(** Decoding a correct stuffing gives back the payload. *)
Lemma decode_cobs_stuffing payload stuffed :
  cobs_stuffing payload stuffed -> decode_cobs stuffed = Return payload.
Proof.
  induction 1 as [chunk Hzero Hlen | chunk payload stuffed Hzero Hlen Hst IH
                 | chunk Hzero Hlen | chunk payload stuffed Hzero Hlen Hst IH].
  - apply decode_cobs_block_end; [rewrite ord_chr; lia | assumption].
  - simpl app. rewrite decode_cobs_block_more;
      [| rewrite ord_chr; lia | assumption
       | eapply cobs_stuffing_nonempty; eassumption].
    rewrite IH, ord_chr by lia.
    replace (length chunk + 1 <? 255) with true by (symmetry; apply Nat.ltb_lt; lia).
    simpl. rewrite <- app_assoc. reflexivity.
  - apply decode_cobs_block_end; [simpl; lia | assumption].
  - simpl app. rewrite decode_cobs_block_more;
      [| simpl; lia | assumption | eapply cobs_stuffing_nonempty; eassumption].
    rewrite IH. simpl. rewrite app_nil_r. reflexivity.
Qed.

(** The encoder closes blocks as [cobs_stuffing] prescribes.  It emits nothing
    only right after a block with code 0xFF that ends the payload. *)
Lemma encode_loop_stuffing in_bytes : forall final_zero run,
  contains_zero run = false -> length run <= 253 ->
  (final_zero = false /\ run = [] /\ in_bytes = [] /\
   encode_loop final_zero run in_bytes = []) \/
  cobs_stuffing (run ++ in_bytes) (encode_loop final_zero run in_bytes).
Proof.
  induction in_bytes as [|in_char rest IH]; intros final_zero run Hzero Hlen; simpl.
  - destruct (length run =? 0) eqn:Hrun; simpl.
    + destruct final_zero.
      * right. rewrite app_nil_r. apply stuffing_last; assumption.
      * left. apply Nat.eqb_eq in Hrun. destruct run; [auto | discriminate].
    + right. rewrite app_nil_r. apply stuffing_last; assumption.
  - right. destruct (Byte.eqb in_char x00) eqn:Hchar.
    + apply Byte.byte_dec_bl in Hchar. subst in_char.
      destruct (IH true [] eq_refl (Nat.le_0_l _)) as [(Hfz & _) | Hst];
        [discriminate|].
      apply stuffing_zero; assumption.
    + assert (Hzero' : contains_zero (run ++ [in_char]) = false).
      { rewrite contains_zero_app, Hzero. simpl.
        rewrite byte_eqb_sym, Hchar. reflexivity. }
      replace (run ++ in_char :: rest) with ((run ++ [in_char]) ++ rest)
        by (rewrite <- app_assoc; reflexivity).
      destruct (length run =? 253) eqn:Hfull.
      * apply Nat.eqb_eq in Hfull.
        assert (Hlen' : length (run ++ [in_char]) = 254)
          by (rewrite length_app; simpl; lia).
        destruct (IH false [] eq_refl (Nat.le_0_l _)) as [(_ & _ & -> & ->) | Hst].
        -- rewrite !app_nil_r. apply stuffing_full_last; assumption.
        -- apply (stuffing_full (run ++ [in_char])); assumption.
      * apply Nat.eqb_neq in Hfull.
        destruct (IH final_zero (run ++ [in_char]) Hzero') as [(_ & Hnil & _) | Hst].
        -- rewrite length_app; simpl; lia.
        -- destruct run; discriminate.
        -- assumption.
Qed.

Lemma encode_cobs_stuffing payload : cobs_stuffing payload (encode_cobs payload).
Proof.
  destruct (encode_loop_stuffing payload true [] eq_refl (Nat.le_0_l _))
    as [(Hfz & _) | Hst]; [discriminate | exact Hst].
Qed.

(** The reference encoder never emits the delimiter. *)
Lemma encode_cobs_no_zero payload : contains_zero (encode_cobs payload) = false.
Proof.
  apply (cobs_stuffing_no_zero payload), encode_cobs_stuffing.
Qed.

(* ===================================================================== *)
(** * Properties of the codec *)
(* ===================================================================== *)

(** C1.  Round trip: for every payload, of any length, [decode_cobs] applied
    to the stuffing that the reference encoder produces for it returns the
    payload itself. *)
Theorem decode_cobs_encode_cobs (payload : bytes) :
  decode_cobs (encode_cobs payload) = Return payload.
Proof.
  apply decode_cobs_stuffing, encode_cobs_stuffing.
Qed.

(** C2.  When [decode_cobsr] arrives at a length code whose chunk has no zero
    byte and runs past the end of the buffer ([idx > len(in_bytes_mv)] after
    the chunk), it raises nothing: it returns the output so far, the bytes
    that were left, and the length byte itself as the last byte.  In
    particular the buffer 0x05 'a' 'b' decodes to "ab" followed by 0x05. *)
Theorem decode_cobsr_overrun_appends_length (mv : bytes) (idx : nat) (out : bytes) (c : byte) :
  at_cursor mv idx out ->
  nth_error mv idx = Some c ->
  ord c <> 0 ->
  contains_zero (slice mv (idx + 1) (idx + 1 + ord c - 1)) = false ->
  length mv < idx + 1 + ord c - 1 ->
  decode_cobsr mv = Return ((out ++ slice mv (idx + 1) (idx + 1 + ord c - 1)) ++ [c]) /\
  decode_cobsr [x05; "a"%byte; "b"%byte] = Return ["a"%byte; "b"%byte; x05].
Proof.
  intros Hat Hnth Hcode Hzero Hlt. split; [|reflexivity].
  rewrite (decode_cobsr_at_cursor mv idx out Hat), cobsr_loop_iterate.
  rewrite (iterate_overrun_intro mv idx out c Hnth Hcode Hzero Hlt). reflexivity.
Qed.

Lemma decode_cobsr_overrun_appends_length_witness :
  decode_cobsr [x02; "a"%byte; x05; "b"%byte; "c"%byte]
  = Return ["a"%byte; x00; "b"%byte; "c"%byte; x05].
Proof.
  refine (proj1 (decode_cobsr_overrun_appends_length
            [x02; "a"%byte; x05; "b"%byte; "c"%byte] 2 ["a"%byte; x00] x05
            _ eq_refl _ eq_refl _)).
  - refine (at_cursor_next [x02; "a"%byte; x05; "b"%byte; "c"%byte] 0 [] x02
              (at_cursor_start _ _) eq_refl _ eq_refl _); simpl; lia.
  - simpl; lia.
  - simpl; lia.
Defined.

(** C3.  [decode_cobs] raises "not enough input bytes for length code" exactly
    when decoding arrives at a length code whose chunk passes the zero-byte
    test and leaves the cursor beyond the end of the buffer; [decode_cobsr]
    raises this error on no input. *)
Theorem truncated_length_code_iff (mv : bytes) :
  (decode_cobs mv = Raise (DecodeError not_enough_input) <->
   exists idx out c,
     at_cursor mv idx out /\ nth_error mv idx = Some c /\ ord c <> 0 /\
     contains_zero (slice mv (idx + 1) (idx + 1 + ord c - 1)) = false /\
     length mv < idx + 1 + ord c - 1) /\
  decode_cobsr mv <> Raise (DecodeError not_enough_input).
Proof.
  split; [split|].
  - intros H. destruct mv as [|b mv]; [discriminate|].
    assert (Hat : at_cursor (b :: mv) 0 [])
      by (apply at_cursor_start; simpl; lia).
    rewrite (decode_cobs_at_cursor _ _ _ Hat) in H.
    exact (cobs_loop_truncated_inv _ _ _ Hat H).
  - intros (idx & out & c & Hat & Hnth & Hcode & Hzero & Hlt).
    rewrite (decode_cobs_at_cursor mv idx out Hat), cobs_loop_iterate.
    rewrite (iterate_overrun_intro mv idx out c Hnth Hcode Hzero Hlt). reflexivity.
  - destruct mv as [|b mv]; [discriminate|].
    rewrite decode_cobsr_nonempty by discriminate.
    apply cobsr_loop_never_truncated.
Qed.

(** A zero byte among the bytes that are left is reported before the
    overrun: the order of the two tests in the loop body. *)
Example zero_byte_before_overrun :
  decode_cobs [x05; "a"%byte; x00] = Raise (DecodeError zero_byte_found) /\
  decode_cobsr [x05; "a"%byte; x00] = Raise (DecodeError zero_byte_found).
Proof. split; reflexivity. Qed.

(** C4.  In both decoders, a length code that is zero, or a chunk that holds
    a zero byte, makes decoding raise "zero byte found in input"; in
    particular [decode_cobs] does so on the single byte 0x00. *)
Theorem zero_byte_in_input (mv : bytes) (idx : nat) (out : bytes) (c : byte) :
  at_cursor mv idx out ->
  nth_error mv idx = Some c ->
  ord c = 0 \/ contains_zero (slice mv (idx + 1) (idx + 1 + ord c - 1)) = true ->
  (decode_cobs mv = Raise (DecodeError zero_byte_found) /\
   decode_cobsr mv = Raise (DecodeError zero_byte_found)) /\
  decode_cobs [x00] = Raise (DecodeError zero_byte_found).
Proof.
  intros Hat Hnth Hbad. split; [split|reflexivity].
  - rewrite (decode_cobs_at_cursor mv idx out Hat), cobs_loop_iterate.
    rewrite (iterate_zero_intro mv idx out c Hnth Hbad). reflexivity.
  - rewrite (decode_cobsr_at_cursor mv idx out Hat), cobsr_loop_iterate.
    rewrite (iterate_zero_intro mv idx out c Hnth Hbad). reflexivity.
Qed.

Lemma zero_byte_in_input_witness :
  decode_cobs [x02; "a"%byte; x03; "b"%byte; x00]
  = Raise (DecodeError zero_byte_found) /\
  decode_cobsr [x02; "a"%byte; x03; "b"%byte; x00]
  = Raise (DecodeError zero_byte_found).
Proof.
  refine (proj1 (zero_byte_in_input
            [x02; "a"%byte; x03; "b"%byte; x00] 2 ["a"%byte; x00] x03
            _ eq_refl (or_intror eq_refl))).
  refine (at_cursor_next [x02; "a"%byte; x03; "b"%byte; x00] 0 [] x02
            (at_cursor_start _ _) eq_refl _ eq_refl _); simpl; lia.
Defined.

(** C5.  In both decoders, after a chunk with length code [c] has been
    consumed: when more input remains, the output continues with one zero
    byte if [c < 0xFF] and with nothing if [c = 0xFF], and then with the
    decoding of the remaining input; when the chunk ends the input exactly,
    decoding stops with the chunk as the last bytes of the output, no zero
    byte after it. *)
Theorem separator_after_chunk (mv : bytes) (idx : nat) (out : bytes) (c : byte) :
  at_cursor mv idx out ->
  nth_error mv idx = Some c ->
  ord c <> 0 ->
  contains_zero (slice mv (idx + 1) (idx + 1 + ord c - 1)) = false ->
  (idx + 1 + ord c - 1 < length mv ->
   decode_cobs mv =
     prepend (if ord c <? 255
              then (out ++ slice mv (idx + 1) (idx + 1 + ord c - 1)) ++ [x00]
              else out ++ slice mv (idx + 1) (idx + 1 + ord c - 1))
       (decode_cobs (skipn (idx + 1 + ord c - 1) mv)) /\
   decode_cobsr mv =
     prepend (if ord c <? 255
              then (out ++ slice mv (idx + 1) (idx + 1 + ord c - 1)) ++ [x00]
              else out ++ slice mv (idx + 1) (idx + 1 + ord c - 1))
       (decode_cobsr (skipn (idx + 1 + ord c - 1) mv))) /\
  (idx + 1 + ord c - 1 = length mv ->
   decode_cobs mv = Return (out ++ slice mv (idx + 1) (idx + 1 + ord c - 1)) /\
   decode_cobsr mv = Return (out ++ slice mv (idx + 1) (idx + 1 + ord c - 1))).
Proof.
  intros Hat Hnth Hcode Hzero. split.
  - intros Hlt.
    pose proof (iterate_more_intro mv idx out c Hnth Hcode Hzero Hlt) as Hit.
    split.
    + exact (decode_cobs_tail mv idx out Hat _ _ Hit).
    + exact (decode_cobsr_tail mv idx out Hat _ _ Hit).
  - intros Hend.
    pose proof (iterate_end_intro mv idx out c Hnth Hcode Hzero Hend) as Hit.
    split.
    + rewrite (decode_cobs_at_cursor mv idx out Hat), cobs_loop_iterate, Hit.
      reflexivity.
    + rewrite (decode_cobsr_at_cursor mv idx out Hat), cobsr_loop_iterate, Hit.
      reflexivity.
Qed.

Lemma separator_after_chunk_witness :
  decode_cobs [x02; "a"%byte; x03; "b"%byte; "c"%byte; x01]
  = prepend ["a"%byte; x00; "b"%byte; "c"%byte; x00] (decode_cobs [x01]) /\
  decode_cobsr [x02; "a"%byte; x03; "b"%byte; "c"%byte; x01]
  = prepend ["a"%byte; x00; "b"%byte; "c"%byte; x00] (decode_cobsr [x01]).
Proof.
  refine (proj1 (separator_after_chunk
            [x02; "a"%byte; x03; "b"%byte; "c"%byte; x01] 2 ["a"%byte; x00] x03
            _ eq_refl _ eq_refl) _).
  - refine (at_cursor_next [x02; "a"%byte; x03; "b"%byte; "c"%byte; x01] 0 [] x02
              (at_cursor_start _ _) eq_refl _ eq_refl _); simpl; lia.
  - simpl; lia.
  - simpl; lia.
Defined.

(** C9.  Both decoders return the empty payload on the empty buffer, and
    [decode_cobs] returns the empty payload on the single byte 0x01. *)
Theorem empty_buffer_and_single_code :
  decode_cobs [] = Return [] /\
  decode_cobsr [] = Return [] /\
  decode_cobs [x01] = Return [].
Proof.
  repeat split; reflexivity.
Qed.

(** C10.  Whenever [decode_cobs] returns a payload, [decode_cobsr] returns
    the same payload on the same buffer. *)
Theorem decode_cobsr_agrees_with_decode_cobs (mv : bytes) (m : bytes) :
  decode_cobs mv = Return m -> decode_cobsr mv = Return m.
Proof.
  destruct mv as [|b mv]; [auto|].
  rewrite decode_cobs_nonempty, decode_cobsr_nonempty by discriminate.
  apply loops_agree.
Qed.

Lemma decode_cobsr_agrees_with_decode_cobs_witness :
  decode_cobsr [x03; "a"%byte; "b"%byte; x01] = Return ["a"%byte; "b"%byte; x00].
Proof.
  exact (decode_cobsr_agrees_with_decode_cobs
           [x03; "a"%byte; "b"%byte; x01] ["a"%byte; "b"%byte; x00] eq_refl).
Defined.

(* ===================================================================== *)
(** * The accumulator at a delimiter *)
(* ===================================================================== *)

Lemma decode_bytes_raises {Time} (self : CobsXDecoder Time) (x : bytes) (e : exn) :
  decode_bytes self x = Raise e -> exists msg, e = DecodeError msg.
Proof.
  unfold decode_bytes. destruct (class self).
  - apply decode_cobs_raises.
  - apply decode_cobsr_raises.
Qed.

Lemma decode_bytes_class {Time} (s1 s2 : CobsXDecoder Time) (x : bytes) :
  class s1 = class s2 -> decode_bytes s1 x = decode_bytes s2 x.
Proof.
  unfold decode_bytes. intros ->. reflexivity.
Qed.

(** The [try] block always ends with a result frame: no exception other than
    [DecodeError] comes out of [decode_bytes]. *)
Lemma try_decode_bytes_emits {Time} (self : CobsXDecoder Time) :
  exists fr,
    try_decode_bytes self = inr (Some fr) /\
    result_start_time fr = frame_start_time self /\
    result_end_time fr = frame_end_time self /\
    reports fr (decode_bytes self (concat (received self))).
Proof.
  unfold try_decode_bytes.
  destruct (decode_bytes self (concat (received self))) as [out|e] eqn:E.
  - eexists. simpl. auto.
  - destruct (decode_bytes_raises self _ e E) as [msg ->].
    eexists. simpl. auto.
Qed.

Lemma strip_prefix_fields {Time} (self : CobsXDecoder Time) :
  class (strip_prefix self) = class self /\
  number_of_prefix_bytes_after_0_byte (strip_prefix self)
    = number_of_prefix_bytes_after_0_byte self /\
  frame_start_time (strip_prefix self) = frame_start_time self /\
  frame_end_time (strip_prefix self) = frame_end_time self.
Proof.
  unfold strip_prefix. destruct (_ <=? _); simpl; auto.
Qed.

Lemma record_start_time_fields {Time} (self : CobsXDecoder Time) frame :
  class (record_start_time self frame) = class self /\
  number_of_prefix_bytes_after_0_byte (record_start_time self frame)
    = number_of_prefix_bytes_after_0_byte self /\
  received (record_start_time self frame) = received self /\
  frame_end_time (record_start_time self frame) = frame_end_time self.
Proof.
  unfold record_start_time. destruct (frame_start_time self); simpl; auto.
Qed.

Lemma received_strip_prefix {Time} (self : CobsXDecoder Time) :
  (number_of_prefix_bytes_after_0_byte self <= length (received self) ->
   received (strip_prefix self)
     = skipn (number_of_prefix_bytes_after_0_byte self) (received self)) /\
  (length (received self) < number_of_prefix_bytes_after_0_byte self ->
   received (strip_prefix self) = received self).
Proof.
  unfold strip_prefix.
  destruct (Nat.leb_spec (number_of_prefix_bytes_after_0_byte self)
              (length (received self))); split; intros; simpl; auto; lia.
Qed.

(** What a call of [decode] on a delimiter does, in terms of the analyzer
    [s] it has after the start time is recorded and the prefix stripped. *)
Lemma decode_at_delimiter {Time} (self : CobsXDecoder Time) (frame : AnalyzerFrame Time) :
  is_delimiter frame = true ->
  let s := strip_prefix (record_start_time self frame) in
  fst (decode self frame)
    = set_frame_start_time (set_received s []) (Some (start_time frame)) /\
  (received s = [] -> snd (decode self frame) = inr None) /\
  (received s <> [] ->
   exists fr,
     snd (decode self frame) = inr (Some fr) /\
     result_start_time fr = frame_start_time s /\
     result_end_time fr = frame_end_time s /\
     reports fr (decode_bytes s (concat (received s)))).
Proof.
  intros Hd s. unfold is_delimiter in Hd. unfold decode. rewrite Hd. fold s.
  destruct (received s) as [|b r] eqn:Hr.
  - simpl. split; [reflexivity|]. split; [reflexivity|]. intros H; contradiction.
  - destruct (try_decode_bytes_emits s) as (fr & E & Hs & He & Hrep).
    rewrite E. simpl. split; [reflexivity|]. split; [discriminate|].
    intros _. exists fr. rewrite Hr in Hrep. auto.
Qed.

Lemma decode_not_delimiter {Time} (self : CobsXDecoder Time) (frame : AnalyzerFrame Time) :
  is_delimiter frame = false ->
  decode self frame =
  (set_frame_end_time
     (set_received (record_start_time self frame)
        (received (record_start_time self frame) ++ [data frame]))
     (Some (end_time frame)),
   inr None).
Proof.
  unfold is_delimiter, decode. intros ->. reflexivity.
Qed.

(** No call of [decode] lets an exception escape. *)
Lemma decode_returns {Time} (self : CobsXDecoder Time) (frame : AnalyzerFrame Time) :
  exists retval, snd (decode self frame) = inr retval.
Proof.
  destruct (is_delimiter frame) eqn:Hd.
  - destruct (decode_at_delimiter self frame Hd) as (_ & Hnone & Hsome).
    destruct (received (strip_prefix (record_start_time self frame))) as [|b r] eqn:Hr.
    + eexists. apply Hnone. reflexivity.
    + destruct Hsome as (fr & E & _); [discriminate|]. eexists. exact E.
  - rewrite (decode_not_delimiter self frame Hd). eexists. reflexivity.
Qed.

(** ** The analyzer along a stream *)

Lemma feed_app {Time} (self : CobsXDecoder Time) frames frame :
  feed self (frames ++ [frame]) = fst (decode (feed self frames) frame).
Proof.
  unfold feed. rewrite fold_left_app. reflexivity.
Qed.

Lemma since_last_delimiter_app {Time} (frames : list (AnalyzerFrame Time)) f :
  since_last_delimiter (frames ++ [f]) =
  if is_delimiter f then [] else since_last_delimiter frames ++ [f].
Proof.
  unfold since_last_delimiter. rewrite fold_left_app. reflexivity.
Qed.

Lemma last_delimiter_app {Time} (frames : list (AnalyzerFrame Time)) f :
  last_delimiter (frames ++ [f]) =
  if is_delimiter f then Some f else last_delimiter frames.
Proof.
  unfold last_delimiter. rewrite rev_app_distr. reflexivity.
Qed.

Lemma last_buffered_app {Time} (frames : list (AnalyzerFrame Time)) f :
  last_buffered (frames ++ [f]) =
  if is_delimiter f then last_buffered frames else Some f.
Proof.
  unfold last_buffered. rewrite rev_app_distr. simpl.
  destruct (is_delimiter f); reflexivity.
Qed.

(** The last frame buffered since the delimiter is the most recent frame that
    is not a delimiter. *)
Lemma last_buffered_since {Time} (frames : list (AnalyzerFrame Time)) :
  since_last_delimiter frames <> [] ->
  exists f,
    hd_error (rev (since_last_delimiter frames)) = Some f /\
    last_buffered frames = Some f.
Proof.
  destruct frames as [|f0 frames0] using rev_ind; [intros H; contradiction H; reflexivity|].
  rewrite since_last_delimiter_app, last_buffered_app.
  destruct (is_delimiter f0); [intros H; contradiction H; reflexivity|].
  intros _. exists f0. rewrite rev_app_distr. auto.
Qed.

(** The attributes of the analyzer after a stream, read off the stream. *)
Lemma feed_state {Time} cls prefix (frames : list (AnalyzerFrame Time)) :
  class (feed (init cls prefix) frames) = cls /\
  number_of_prefix_bytes_after_0_byte (feed (init cls prefix) frames) = prefix /\
  received (feed (init cls prefix) frames) = map (@data Time) (since_last_delimiter frames) /\
  frame_start_time (feed (init cls prefix) frames) =
    match last_delimiter frames with
    | Some d => Some (start_time d)
    | None => option_map (@start_time Time) (hd_error frames)
    end /\
  frame_end_time (feed (init cls prefix) frames) =
    option_map (@end_time Time) (last_buffered frames).
Proof.
  induction frames as [|f frames IH] using rev_ind.
  - simpl. auto.
  - destruct IH as (Hcls & Hk & Hrecv & Hstart & Hend).
    rewrite feed_app, since_last_delimiter_app, last_delimiter_app, last_buffered_app.
    destruct (is_delimiter f) eqn:Hd.
    + destruct (decode_at_delimiter (feed (init cls prefix) frames) f Hd) as (-> & _).
      destruct (strip_prefix_fields (record_start_time (feed (init cls prefix) frames) f))
        as (Hc1 & Hk1 & _ & He1).
      destruct (record_start_time_fields (feed (init cls prefix) frames) f)
        as (Hc2 & Hk2 & _ & He2).
      simpl. rewrite Hc1, Hc2, Hk1, Hk2, He1, He2. auto.
    + rewrite (decode_not_delimiter _ f Hd).
      destruct (record_start_time_fields (feed (init cls prefix) frames) f)
        as (Hc2 & Hk2 & Hr2 & He2).
      simpl. rewrite Hc2, Hk2, Hr2, Hrecv, map_app. repeat split; auto.
      unfold record_start_time.
      destruct (last_delimiter frames) as [d|].
      * rewrite Hstart. assumption.
      * destruct frames as [|f0 frames]; [reflexivity|].
        rewrite Hstart. simpl. assumption.
Qed.

(* ===================================================================== *)
(** * Properties of the accumulator *)
(* ===================================================================== *)

(** C6.  At a delimiter, with prefix count [k]: when at least [k] entries are
    buffered, what is decoded is the buffer without its first [k] entries;
    when fewer are buffered, the whole buffer is decoded as it is; and when
    the buffer is empty after this, the call returns no frame. *)
Theorem prefix_stripped_at_delimiter (Time : Type)
    (self : CobsXDecoder Time) (frame : AnalyzerFrame Time) :
  is_delimiter frame = true ->
  (number_of_prefix_bytes_after_0_byte self <= length (received self) ->
   (skipn (number_of_prefix_bytes_after_0_byte self) (received self) = [] ->
    snd (decode self frame) = inr None) /\
   (skipn (number_of_prefix_bytes_after_0_byte self) (received self) <> [] ->
    exists fr,
      snd (decode self frame) = inr (Some fr) /\
      reports fr
        (decode_bytes self
           (concat (skipn (number_of_prefix_bytes_after_0_byte self) (received self)))))) /\
  (length (received self) < number_of_prefix_bytes_after_0_byte self ->
   (received self = [] -> snd (decode self frame) = inr None) /\
   (received self <> [] ->
    exists fr,
      snd (decode self frame) = inr (Some fr) /\
      reports fr (decode_bytes self (concat (received self))))).
Proof.
  intros Hd.
  destruct (decode_at_delimiter self frame Hd) as (_ & Hnone & Hsome).
  destruct (record_start_time_fields self frame) as (Hc & Hk & Hr & _).
  destruct (strip_prefix_fields (record_start_time self frame)) as (Hc' & _).
  destruct (received_strip_prefix (record_start_time self frame)) as (Hge & Hlt).
  rewrite Hk, Hr in Hge, Hlt.
  assert (Hcls : forall x,
    decode_bytes (strip_prefix (record_start_time self frame)) x = decode_bytes self x)
    by (intros x; apply decode_bytes_class; congruence).
  split; intros Hlen; [specialize (Hge Hlen) | specialize (Hlt Hlen)].
  - rewrite Hge in Hnone, Hsome. split; [exact Hnone|].
    intros Hne. destruct (Hsome Hne) as (fr & E & _ & _ & Hrep).
    exists fr. rewrite Hcls in Hrep. auto.
  - rewrite Hlt in Hnone, Hsome. split; [exact Hnone|].
    intros Hne. destruct (Hsome Hne) as (fr & E & _ & _ & Hrep).
    exists fr. rewrite Hcls in Hrep. auto.
Qed.

Lemma prefix_stripped_at_delimiter_witness :
  exists fr,
    snd (decode (mkCobsXDecoder CobsDecoder 2
                   [["x"%byte]; ["y"%byte]; [x02]; ["z"%byte]] (Some 0) (Some 4))
           (mkAnalyzerFrame [x00] 5 6)) = inr (Some fr) /\
    reports fr (decode_cobs [x02; "z"%byte]).
Proof.
  refine (proj2 (proj1 (prefix_stripped_at_delimiter nat
            (mkCobsXDecoder CobsDecoder 2
               [["x"%byte]; ["y"%byte]; [x02]; ["z"%byte]] (Some 0) (Some 4))
            (mkAnalyzerFrame [x00] 5 6) eq_refl) _) _).
  - simpl. lia.
  - discriminate.
Defined.

(** C7, as the code has it.  A call of [decode] on a delimiter returns
    normally and leaves the analyzer with [received] empty and
    [frame_start_time] set to the start time of the delimiter;
    [frame_end_time] is not touched, so after a returned frame it still is
    the end time of that frame. *)
Theorem delimiter_resets_buffer_and_start (Time : Type)
    (self : CobsXDecoder Time) (frame : AnalyzerFrame Time) :
  is_delimiter frame = true ->
  (exists retval, snd (decode self frame) = inr retval) /\
  received (fst (decode self frame)) = [] /\
  frame_start_time (fst (decode self frame)) = Some (start_time frame) /\
  frame_end_time (fst (decode self frame)) = frame_end_time self /\
  (forall fr, snd (decode self frame) = inr (Some fr) ->
              result_end_time fr = frame_end_time (fst (decode self frame))).
Proof.
  intros Hd.
  destruct (decode_at_delimiter self frame Hd) as (Hfst & Hnone & Hsome).
  destruct (record_start_time_fields self frame) as (_ & _ & _ & He).
  destruct (strip_prefix_fields (record_start_time self frame)) as (_ & _ & _ & He').
  assert (Hend : frame_end_time (fst (decode self frame)) = frame_end_time self)
    by (rewrite Hfst; simpl; congruence).
  repeat split.
  - apply decode_returns.
  - rewrite Hfst. reflexivity.
  - rewrite Hfst. reflexivity.
  - exact Hend.
  - intros fr E.
    destruct (received (strip_prefix (record_start_time self frame))) as [|b r] eqn:Hr.
    + rewrite Hnone in E by reflexivity. discriminate.
    + destruct Hsome as (fr' & E' & _ & Hre & _); [discriminate|].
      rewrite E' in E. inversion E; subst fr'. congruence.
Qed.

Lemma delimiter_resets_buffer_and_start_witness :
  received (fst (decode (feed (init CobsDecoder 0) [mkAnalyzerFrame [x01] 0 1])
                   (mkAnalyzerFrame [x00] 2 3))) = [] /\
  frame_start_time (fst (decode (feed (init CobsDecoder 0) [mkAnalyzerFrame [x01] 0 1])
                           (mkAnalyzerFrame [x00] 2 3))) = Some 2 /\
  frame_end_time (fst (decode (feed (init CobsDecoder 0) [mkAnalyzerFrame [x01] 0 1])
                         (mkAnalyzerFrame [x00] 2 3))) = Some 1.
Proof.
  destruct (delimiter_resets_buffer_and_start nat
              (feed (init CobsDecoder 0) [mkAnalyzerFrame [x01] 0 1])
              (mkAnalyzerFrame [x00] 2 3) eq_refl) as (_ & Hr & Hs & He & _).
  exact (conj Hr (conj Hs He)).
Defined.

(** C7 as stated fails: after the byte 0x01 and a delimiter, the three
    attributes are not all reset, [frame_end_time] still holds the end time of
    the byte 0x01. *)
Lemma frame_end_time_not_unset :
  ~ (received (fst (decode (feed (init CobsDecoder 0) [mkAnalyzerFrame [x01] 0 1])
                      (mkAnalyzerFrame [x00] 2 3))) = [] /\
     frame_start_time (fst (decode (feed (init CobsDecoder 0) [mkAnalyzerFrame [x01] 0 1])
                              (mkAnalyzerFrame [x00] 2 3))) = Some 2 /\
     frame_end_time (fst (decode (feed (init CobsDecoder 0) [mkAnalyzerFrame [x01] 0 1])
                            (mkAnalyzerFrame [x00] 2 3))) = None).
Proof.
  intros (_ & _ & H). vm_compute in H. discriminate H.
Qed.

(** C8, as the code has it.  A frame returned at a delimiter has as start
    time the start time of the delimiter before it, or of the first byte of
    the stream when no delimiter came before, and as end time the end time of
    the last byte buffered before the current delimiter. *)
Theorem result_frame_times (Time : Type) (cls : decoder_class) (prefix : nat)
    (frames : list (AnalyzerFrame Time)) (d : AnalyzerFrame Time)
    (fr : ResultFrame Time) :
  is_delimiter d = true ->
  snd (decode (feed (init cls prefix) frames) d) = inr (Some fr) ->
  result_start_time fr =
    match last_delimiter frames with
    | Some d' => Some (start_time d')
    | None => option_map (@start_time Time) (hd_error frames)
    end /\
  exists f,
    hd_error (rev (since_last_delimiter frames)) = Some f /\
    result_end_time fr = Some (end_time f).
Proof.
  intros Hd E.
  destruct (feed_state cls prefix frames) as (_ & _ & Hrecv & Hstart & Hend).
  destruct (decode_at_delimiter (feed (init cls prefix) frames) d Hd)
    as (_ & Hnone & Hsome).
  destruct (record_start_time_fields (feed (init cls prefix) frames) d)
    as (_ & Hk & Hr & He).
  destruct (strip_prefix_fields (record_start_time (feed (init cls prefix) frames) d))
    as (_ & _ & Hs' & He').
  destruct (received (strip_prefix (record_start_time (feed (init cls prefix) frames) d)))
    as [|b r] eqn:Hstripped.
  { rewrite Hnone in E by reflexivity. discriminate. }
  destruct Hsome as (fr' & E' & Hrs & Hre & _); [discriminate|].
  rewrite E' in E. inversion E; subst fr'. clear E.
  assert (Hbuf : since_last_delimiter frames <> []).
  { intros Hnil. rewrite Hnil in Hrecv. simpl in Hrecv.
    unfold strip_prefix in Hstripped. rewrite Hr, Hrecv in Hstripped.
    destruct (_ <=? _); simpl in Hstripped; try rewrite skipn_nil in Hstripped;
      try rewrite Hr, Hrecv in Hstripped; discriminate. }
  split.
  - rewrite Hrs, Hs'. unfold record_start_time. rewrite Hstart.
    destruct (last_delimiter frames) as [d'|]; [exact Hstart|].
    destruct frames as [|f0 frames]; [contradiction Hbuf; reflexivity|].
    simpl. exact Hstart.
  - destruct (last_buffered_since frames Hbuf) as (f & Hlast & Hlb).
    exists f. split; [assumption|].
    rewrite Hre, He', He, Hend, Hlb. reflexivity.
Qed.

Lemma result_frame_times_witness :
  Some 2 = Some 2 /\
  exists f,
    hd_error (rev (since_last_delimiter
                     [mkAnalyzerFrame [x01] 0 1; mkAnalyzerFrame [x00] 2 3;
                      mkAnalyzerFrame [x02] 4 5; mkAnalyzerFrame ["a"%byte] 6 7]))
    = Some f /\
    Some 7 = Some (end_time f).
Proof.
  exact (result_frame_times nat CobsDecoder 0
           [mkAnalyzerFrame [x01] 0 1; mkAnalyzerFrame [x00] 2 3;
            mkAnalyzerFrame [x02] 4 5; mkAnalyzerFrame ["a"%byte] 6 7]
           (mkAnalyzerFrame [x00] 8 9)
           (mkResultFrame "Message" (Some 2) (Some 7) (data_data ["a"%byte]))
           eq_refl eq_refl).
Defined.

(** C8 as stated fails: in the stream 0x01, 0x00, 0x02, 'a', 0x00 the second
    frame is returned with the start time 2 of the first delimiter, while the
    first byte after that delimiter starts at 4. *)
Lemma start_time_is_not_first_byte_after_delimiter :
  snd (decode (feed (init CobsDecoder 0)
                 [mkAnalyzerFrame [x01] 0 1; mkAnalyzerFrame [x00] 2 3;
                  mkAnalyzerFrame [x02] 4 5; mkAnalyzerFrame ["a"%byte] 6 7])
         (mkAnalyzerFrame [x00] 8 9))
  = inr (Some (mkResultFrame "Message" (Some 2) (Some 7) (data_data ["a"%byte]))) /\
  result_start_time (mkResultFrame "Message" (Some 2) (Some 7) (data_data ["a"%byte]))
  <> option_map (@start_time nat)
       (hd_error (since_last_delimiter
                    [mkAnalyzerFrame [x01] 0 1; mkAnalyzerFrame [x00] 2 3;
                     mkAnalyzerFrame [x02] 4 5; mkAnalyzerFrame ["a"%byte] 6 7])).
Proof.
  split; [reflexivity | vm_compute; discriminate].
Qed.

(* ===================================================================== *)
(** * Further properties of the codec *)
(* ===================================================================== *)

(** ** The bytes an iteration looks at *)

Lemma iterate_zero_inv mv idx out :
  iterate mv idx out = it_zero_byte ->
  exists c,
    nth_error mv idx = Some c /\
    (ord c = 0 \/ contains_zero (slice mv (idx + 1) (idx + 1 + ord c - 1)) = true).
Proof.
  intros H. split_iterate H; eauto.
Qed.

Lemma iterate_end_inv mv idx out out' :
  iterate mv idx out = it_end out' ->
  exists c,
    nth_error mv idx = Some c /\ ord c <> 0 /\
    contains_zero (slice mv (idx + 1) (idx + 1 + ord c - 1)) = false /\
    idx + 1 + ord c - 1 = length mv /\
    out' = out ++ slice mv (idx + 1) (idx + 1 + ord c - 1).
Proof.
  intros H. split_iterate H. inversion H; subst.
  exists b. repeat split; auto. lia.
Qed.

Lemma length_slice (mv : bytes) i j :
  length (slice mv i j) <= j - i /\ length (slice mv i j) <= length mv - i.
Proof.
  unfold slice. rewrite length_firstn, length_skipn. lia.
Qed.

(** The bytes from a length code on are the code, its chunk and the bytes
    after the chunk. *)
Lemma skipn_code_chunk (mv : bytes) idx c :
  nth_error mv idx = Some c -> ord c <> 0 ->
  skipn idx mv =
  c :: slice mv (idx + 1) (idx + 1 + ord c - 1) ++ skipn (idx + 1 + ord c - 1) mv.
Proof.
  intros Hnth Hcode. destruct (nth_error_split mv idx Hnth) as (l1 & l2 & -> & <-).
  unfold slice.
  replace (length l1) with (length l1 + 0) at 1 by lia.
  rewrite skipn_app_length. simpl skipn at 1. f_equal.
  replace (l1 ++ c :: l2) with ((l1 ++ [c]) ++ l2) by (rewrite <- app_assoc; reflexivity).
  replace (length l1 + 1) with (length (l1 ++ [c]) + 0) by (rewrite length_app; simpl; lia).
  replace (length (l1 ++ [c]) + 0 + ord c - 1) with (length (l1 ++ [c]) + (ord c - 1))
    by lia.
  rewrite !skipn_app_length. simpl skipn at 1.
  replace (length (l1 ++ [c]) + (ord c - 1) - (length (l1 ++ [c]) + 0)) with (ord c - 1)
    by lia.
  symmetry. apply firstn_skipn.
Qed.

Lemma contains_zero_from_code (mv : bytes) idx c :
  nth_error mv idx = Some c -> ord c <> 0 ->
  contains_zero (skipn idx mv) =
  contains_zero (slice mv (idx + 1) (idx + 1 + ord c - 1))
  || contains_zero (skipn (idx + 1 + ord c - 1) mv).
Proof.
  intros Hnth Hcode. rewrite (skipn_code_chunk mv idx c Hnth Hcode). simpl.
  rewrite contains_zero_app.
  destruct (Byte.eqb x00 c) eqn:E; [|reflexivity].
  apply Byte.byte_dec_bl in E. subst c. contradiction Hcode. reflexivity.
Qed.

(** ** Zero bytes anywhere in the buffer *)

Section ZeroBytes.

Variable loop : bytes -> nat -> bytes -> outcome.
Variable on_overrun : bytes -> byte -> outcome.

Hypothesis loop_iterate : forall mv idx out,
  loop mv idx out =
  match iterate mv idx out with
  | it_index_error => Raise IndexError
  | it_zero_byte => Raise (DecodeError zero_byte_found)
  | it_overrun out' c => on_overrun out' c
  | it_more idx' out' => loop mv idx' out'
  | it_end out' => Return out'
  end.

Hypothesis on_overrun_not_zero : forall out c,
  on_overrun out c <> Raise (DecodeError zero_byte_found).

(** From any cursor inside the buffer, the loop raises the zero-byte error
    exactly when a zero byte lies at or after the cursor. *)
Lemma loop_zero_byte_iff mv idx out :
  idx < length mv ->
  (loop mv idx out = Raise (DecodeError zero_byte_found) <->
   contains_zero (skipn idx mv) = true).
Proof.
  revert idx out. apply (loop_ind mv (fun idx out =>
    idx < length mv ->
    (loop mv idx out = Raise (DecodeError zero_byte_found) <->
     contains_zero (skipn idx mv) = true))).
  intros idx out IH Hidx. rewrite loop_iterate.
  destruct (iterate mv idx out) as [| |out' c|idx' out'|out'] eqn:Hit.
  - apply iterate_index_error_inv in Hit. lia.
  - apply iterate_zero_inv in Hit. destruct Hit as (c & Hnth & Hbad).
    split; [intros _|reflexivity].
    destruct (Nat.eq_dec (ord c) 0) as [Hz|Hnz].
    + apply ord_zero_iff in Hz. subst c.
      destruct (nth_error_split mv idx Hnth) as (l1 & l2 & -> & <-).
      replace (length l1) with (length l1 + 0) by lia.
      rewrite skipn_app_length. reflexivity.
    + destruct Hbad as [Hz|Hz]; [contradiction|].
      rewrite (contains_zero_from_code mv idx c Hnth Hnz), Hz. reflexivity.
  - apply iterate_overrun_inv in Hit.
    destruct Hit as (Hnth & Hcode & Hzero & Hlt & _).
    rewrite (contains_zero_from_code mv idx c Hnth Hcode), Hzero.
    rewrite skipn_all2 by lia. simpl.
    split; [intros H; contradiction (on_overrun_not_zero out' c H) | discriminate].
  - pose proof Hit as Hit'. apply iterate_more_inv in Hit'.
    destruct Hit' as (c & Hnth & Hcode & Hzero & Hlt & Hidx' & _).
    rewrite (contains_zero_from_code mv idx c Hnth Hcode), Hzero. simpl.
    rewrite <- Hidx'. apply (IH idx' out' eq_refl). lia.
  - apply iterate_end_inv in Hit.
    destruct Hit as (c & Hnth & Hcode & Hzero & Hend & _).
    rewrite (contains_zero_from_code mv idx c Hnth Hcode), Hzero.
    rewrite skipn_all2 by lia. simpl. split; discriminate.
Qed.

End ZeroBytes.

Lemma cobs_overrun_not_zero (out : bytes) (c : byte) :
  Raise (DecodeError not_enough_input) <> Raise (DecodeError zero_byte_found).
Proof. discriminate. Qed.

Lemma cobsr_overrun_not_zero (out : bytes) (c : byte) :
  Return (out ++ [c]) <> Raise (DecodeError zero_byte_found).
Proof. discriminate. Qed.

Lemma cobs_loop_raises mv idx out e :
  idx < length mv -> cobs_loop mv idx out = Raise e ->
  e = DecodeError zero_byte_found \/ e = DecodeError not_enough_input.
Proof.
  revert idx out. apply (loop_ind mv (fun idx out =>
    idx < length mv -> cobs_loop mv idx out = Raise e ->
    e = DecodeError zero_byte_found \/ e = DecodeError not_enough_input)).
  intros idx out IH Hidx. rewrite cobs_loop_iterate.
  destruct (iterate mv idx out) as [| |out' c|idx' out'|out'] eqn:Hit; intros H.
  - apply iterate_index_error_inv in Hit. lia.
  - inversion H. auto.
  - inversion H. auto.
  - apply (IH idx' out' eq_refl); [|assumption].
    apply iterate_more_inv in Hit. destruct Hit as (c & _ & _ & _ & Hlt & Hidx' & _). lia.
  - discriminate.
Qed.

Lemma cobsr_loop_raises mv idx out e :
  idx < length mv -> cobsr_loop mv idx out = Raise e ->
  e = DecodeError zero_byte_found.
Proof.
  revert idx out. apply (loop_ind mv (fun idx out =>
    idx < length mv -> cobsr_loop mv idx out = Raise e ->
    e = DecodeError zero_byte_found)).
  intros idx out IH Hidx. rewrite cobsr_loop_iterate.
  destruct (iterate mv idx out) as [| |out' c|idx' out'|out'] eqn:Hit; intros H.
  - apply iterate_index_error_inv in Hit. lia.
  - inversion H. auto.
  - discriminate.
  - apply (IH idx' out' eq_refl); [|assumption].
    apply iterate_more_inv in Hit. destruct Hit as (c & _ & _ & _ & Hlt & Hidx' & _). lia.
  - discriminate.
Qed.

Lemma decode_cobs_zero_byte_iff mv :
  decode_cobs mv = Raise (DecodeError zero_byte_found) <-> contains_zero mv = true.
Proof.
  destruct mv as [|b mv]; [split; discriminate|].
  rewrite decode_cobs_nonempty by discriminate.
  apply (loop_zero_byte_iff cobs_loop _ cobs_loop_iterate cobs_overrun_not_zero
           (b :: mv) 0 []). simpl; lia.
Qed.

Lemma decode_cobsr_zero_byte_iff mv :
  decode_cobsr mv = Raise (DecodeError zero_byte_found) <-> contains_zero mv = true.
Proof.
  destruct mv as [|b mv]; [split; discriminate|].
  rewrite decode_cobsr_nonempty by discriminate.
  apply (loop_zero_byte_iff cobsr_loop _ cobsr_loop_iterate cobsr_overrun_not_zero
           (b :: mv) 0 []). simpl; lia.
Qed.

Lemma decode_cobs_raises_one_of mv e :
  decode_cobs mv = Raise e ->
  e = DecodeError zero_byte_found \/ e = DecodeError not_enough_input.
Proof.
  destruct mv as [|b mv]; [discriminate|].
  rewrite decode_cobs_nonempty by discriminate.
  apply cobs_loop_raises. simpl; lia.
Qed.

Lemma decode_cobsr_raises_zero mv e :
  decode_cobsr mv = Raise e -> e = DecodeError zero_byte_found.
Proof.
  destruct mv as [|b mv]; [discriminate|].
  rewrite decode_cobsr_nonempty by discriminate.
  apply cobsr_loop_raises. simpl; lia.
Qed.

Lemma decode_cobsr_no_zero_returns mv :
  contains_zero mv = false -> exists m, decode_cobsr mv = Return m.
Proof.
  intros Hz. destruct (decode_cobsr mv) as [m|e] eqn:E; [eauto|].
  rewrite (decode_cobsr_raises_zero mv e E) in E.
  apply decode_cobsr_zero_byte_iff in E. congruence.
Qed.

(** X1.  Each decoder raises "zero byte found in input" exactly on the
    buffers that hold a zero byte, wherever in the buffer it is. *)
Theorem zero_byte_error_iff_buffer_has_zero (mv : bytes) :
  (decode_cobs mv = Raise (DecodeError zero_byte_found) <-> contains_zero mv = true) /\
  (decode_cobsr mv = Raise (DecodeError zero_byte_found) <-> contains_zero mv = true).
Proof.
  split; [apply decode_cobs_zero_byte_iff | apply decode_cobsr_zero_byte_iff].
Qed.

(** X2.  [decode_cobsr] returns a payload exactly on the buffers without a
    zero byte: a buffer is invalid for it only if it contains zeros. *)
Theorem decode_cobsr_returns_iff_no_zero (mv : bytes) :
  (exists m, decode_cobsr mv = Return m) <-> contains_zero mv = false.
Proof.
  split; [|apply decode_cobsr_no_zero_returns].
  intros (m & Hm). destruct (contains_zero mv) eqn:Hz; [|reflexivity].
  apply decode_cobsr_zero_byte_iff in Hz. congruence.
Qed.

(** X3.  The only exceptions the decoders raise are [DecodeError]s with the
    two messages of the source: [decode_cobs] raises one of the two,
    [decode_cobsr] only the zero-byte one.  No [IndexError] or [ValueError]
    leaves either function. *)
Theorem decoders_raise_only_decode_errors (mv : bytes) (e : exn) :
  (decode_cobs mv = Raise e ->
   e = DecodeError zero_byte_found \/ e = DecodeError not_enough_input) /\
  (decode_cobsr mv = Raise e -> e = DecodeError zero_byte_found).
Proof.
  split; [apply decode_cobs_raises_one_of | apply decode_cobsr_raises_zero].
Qed.

Lemma decoders_raise_only_decode_errors_witness :
  (DecodeError not_enough_input = DecodeError zero_byte_found \/
   DecodeError not_enough_input = DecodeError not_enough_input) /\
  DecodeError zero_byte_found = DecodeError zero_byte_found.
Proof.
  split.
  - exact (proj1 (decoders_raise_only_decode_errors [x05; "a"%byte]
                    (DecodeError not_enough_input)) eq_refl).
  - exact (proj2 (decoders_raise_only_decode_errors [x02; x00]
                    (DecodeError zero_byte_found)) eq_refl).
Defined.

(** ** The size of the output *)

Lemma cobs_loop_length mv idx out m :
  idx < length mv -> cobs_loop mv idx out = Return m ->
  length m + idx + 1 <= length out + length mv.
Proof.
  revert idx out. apply (loop_ind mv (fun idx out =>
    idx < length mv -> cobs_loop mv idx out = Return m ->
    length m + idx + 1 <= length out + length mv)).
  intros idx out IH Hidx. rewrite cobs_loop_iterate.
  destruct (iterate mv idx out) as [| |out' c|idx' out'|out'] eqn:Hit;
    try discriminate; intros H.
  - apply iterate_more_inv in Hit.
    destruct Hit as (c & _ & Hcode & _ & Hlt & Hidx' & Hout').
    specialize (IH idx' out' eq_refl ltac:(lia) H).
    pose proof (length_slice mv (idx + 1) (idx + 1 + ord c - 1)) as (Hs & _).
    assert (length out' <= length out + length (slice mv (idx + 1) (idx + 1 + ord c - 1)) + 1)
      by (subst out'; destruct (ord c <? 255); rewrite ?length_app; simpl; lia).
    lia.
  - apply iterate_end_inv in Hit.
    destruct Hit as (c & _ & Hcode & _ & Hend & Hout').
    inversion H; subst m out'. rewrite length_app.
    pose proof (length_slice mv (idx + 1) (idx + 1 + ord c - 1)) as (Hs & _). lia.
Qed.

Lemma cobsr_loop_length mv idx out m :
  idx < length mv -> cobsr_loop mv idx out = Return m ->
  length m + idx <= length out + length mv.
Proof.
  revert idx out. apply (loop_ind mv (fun idx out =>
    idx < length mv -> cobsr_loop mv idx out = Return m ->
    length m + idx <= length out + length mv)).
  intros idx out IH Hidx. rewrite cobsr_loop_iterate.
  destruct (iterate mv idx out) as [| |out' c|idx' out'|out'] eqn:Hit;
    try discriminate; intros H.
  - apply iterate_overrun_inv in Hit.
    destruct Hit as (_ & Hcode & _ & Hlt & Hout').
    inversion H; subst m out'. rewrite !length_app. simpl.
    pose proof (length_slice mv (idx + 1) (idx + 1 + ord c - 1)) as (_ & Hs). lia.
  - apply iterate_more_inv in Hit.
    destruct Hit as (c & _ & Hcode & _ & Hlt & Hidx' & Hout').
    specialize (IH idx' out' eq_refl ltac:(lia) H).
    pose proof (length_slice mv (idx + 1) (idx + 1 + ord c - 1)) as (Hs & _).
    assert (length out' <= length out + length (slice mv (idx + 1) (idx + 1 + ord c - 1)) + 1)
      by (subst out'; destruct (ord c <? 255); rewrite ?length_app; simpl; lia).
    lia.
  - apply iterate_end_inv in Hit.
    destruct Hit as (c & _ & Hcode & _ & Hend & Hout').
    inversion H; subst m out'. rewrite length_app.
    pose proof (length_slice mv (idx + 1) (idx + 1 + ord c - 1)) as (Hs & _). lia.
Qed.

(** X4.  Decoding never makes the data longer: a payload returned by
    [decode_cobs] for a non-empty buffer is shorter than the buffer, and a
    payload returned by [decode_cobsr] is at most as long as the buffer. *)
Theorem decoded_payload_not_longer (mv m : bytes) :
  (decode_cobs mv = Return m -> mv <> [] -> length m < length mv) /\
  (decode_cobsr mv = Return m -> length m <= length mv).
Proof.
  split.
  - intros H Hne. rewrite decode_cobs_nonempty in H by assumption.
    assert (0 < length mv) by (destruct mv; [contradiction | simpl; lia]).
    pose proof (cobs_loop_length mv 0 [] m ltac:(assumption) H). simpl in *. lia.
  - intros H. destruct mv as [|b mv]; [inversion H; simpl; lia|].
    rewrite decode_cobsr_nonempty in H by discriminate.
    pose proof (cobsr_loop_length (b :: mv) 0 [] m ltac:(simpl; lia) H).
    simpl in *. lia.
Qed.

Lemma decoded_payload_not_longer_witness :
  length ["a"%byte; "b"%byte] < length [x03; "a"%byte; "b"%byte] /\
  length ["a"%byte; "b"%byte; x05] <= length [x05; "a"%byte; "b"%byte].
Proof.
  split.
  - exact (proj1 (decoded_payload_not_longer [x03; "a"%byte; "b"%byte]
                    ["a"%byte; "b"%byte]) eq_refl ltac:(discriminate)).
  - exact (proj2 (decoded_payload_not_longer [x05; "a"%byte; "b"%byte]
                    ["a"%byte; "b"%byte; x05]) eq_refl).
Defined.

(** ** The buffers [decode_cobs] accepts *)

Lemma chr_ord c : chr (ord c) = c.
Proof.
  unfold chr, ord. rewrite Byte.of_to_nat. reflexivity.
Qed.

Lemma ord_bounded c : ord c <= 255.
Proof. apply Byte.to_nat_bounded. Qed.

Lemma length_slice_inside (mv : bytes) i j :
  i <= j -> j <= length mv -> length (slice mv i j) = j - i.
Proof.
  intros Hij Hj. unfold slice. rewrite length_firstn, length_skipn. lia.
Qed.

(** The first block of a buffer, as [cobs_stuffing] counts it. *)
Lemma first_block_stuffing (mv : bytes) c payload :
  nth_error mv 0 = Some c -> ord c <> 0 ->
  contains_zero (slice mv (0 + 1) (0 + 1 + ord c - 1)) = false ->
  0 + 1 + ord c - 1 <= length mv ->
  (skipn (0 + 1 + ord c - 1) mv = [] /\
   payload = slice mv (0 + 1) (0 + 1 + ord c - 1) \/
   exists rest,
     cobs_stuffing rest (skipn (0 + 1 + ord c - 1) mv) /\
     payload = (if ord c <? 255
                then slice mv (0 + 1) (0 + 1 + ord c - 1) ++ [x00]
                else slice mv (0 + 1) (0 + 1 + ord c - 1)) ++ rest) ->
  cobs_stuffing payload mv.
Proof.
  intros Hnth Hcode Hzero Hlen Hrest.
  pose proof (skipn_code_chunk mv 0 c Hnth Hcode) as Hmv. simpl skipn at 1 in Hmv.
  pose proof (length_slice_inside mv (0 + 1) (0 + 1 + ord c - 1) ltac:(lia) Hlen) as Hsl.
  pose proof (ord_bounded c) as Hb.
  set (chunk := slice mv (0 + 1) (0 + 1 + ord c - 1)) in *.
  assert (Hc : c = chr (length chunk + 1))
    by (rewrite Hsl; replace (0 + 1 + ord c - 1 - (0 + 1) + 1) with (ord c) by lia;
        symmetry; apply chr_ord).
  destruct (Nat.ltb_spec (ord c) 255) as [Hlt|Hge].
  - destruct Hrest as [(Hnil & ->) | (rest & Hst & ->)]; rewrite Hmv.
    + rewrite Hnil, app_nil_r, Hc. apply stuffing_last; [assumption | lia].
    + rewrite <- app_assoc. simpl. rewrite Hc at 1.
      apply (stuffing_zero chunk rest); [assumption | lia | assumption].
  - assert (Hxff : c = xff)
      by (rewrite Hc; replace (length chunk + 1) with 255 by lia; reflexivity).
    clearbody chunk. clear Hc. subst c.
    destruct Hrest as [(Hnil & ->) | (rest & Hst & ->)]; rewrite Hmv.
    + rewrite Hnil, app_nil_r. apply stuffing_full_last; [assumption | simpl in *; lia].
    + apply (stuffing_full chunk rest); [assumption | simpl in *; lia | assumption].
Qed.

Lemma decode_cobs_accepts_stuffing_only n : forall mv m,
  length mv <= n -> mv <> [] -> decode_cobs mv = Return m -> cobs_stuffing m mv.
Proof.
  induction n as [|n IH]; intros mv m Hn Hne H.
  - destruct mv; [contradiction | simpl in Hn; lia].
  - assert (Hat : at_cursor mv 0 [])
      by (apply at_cursor_start; destruct mv; [contradiction | simpl; lia]).
    pose proof H as H0. rewrite (decode_cobs_at_cursor mv 0 [] Hat), cobs_loop_iterate in H0.
    destruct (iterate mv 0 []) as [| |out' c|idx' out'|out'] eqn:Hit; try discriminate.
    + pose proof (decode_cobs_tail mv 0 [] Hat idx' out' Hit) as Htail.
      apply iterate_more_inv in Hit.
      destruct Hit as (c & Hnth & Hcode & Hzero & Hlt & Hidx' & Hout').
      rewrite H in Htail.
      destruct (decode_cobs (skipn idx' mv)) as [rest|e] eqn:Hrest; [|discriminate].
      inversion Htail; subst m.
      apply (first_block_stuffing mv c); try assumption; [lia|].
      right. exists rest. subst idx'. split.
      * apply IH; [rewrite length_skipn; lia | apply skipn_nonempty; lia | assumption].
      * rewrite Hout'. destruct (ord c <? 255); reflexivity.
    + apply iterate_end_inv in Hit.
      destruct Hit as (c & Hnth & Hcode & Hzero & Hend & Hout').
      inversion H0; subst m out'.
      apply (first_block_stuffing mv c); try assumption; [lia|].
      left. split; [apply skipn_all2; lia | reflexivity].
Qed.

(** X6.  [decode_cobs] returns a payload for a buffer exactly when the buffer
    is empty and so is the payload, or the buffer is a correct COBS stuffing
    of the payload: it accepts nothing else. *)
Theorem decode_cobs_returns_iff_stuffing (mv m : bytes) :
  decode_cobs mv = Return m <-> (mv = [] /\ m = []) \/ cobs_stuffing m mv.
Proof.
  split.
  - intros H. destruct mv as [|b mv].
    + left. inversion H. auto.
    + right. apply (decode_cobs_accepts_stuffing_only (length (b :: mv)));
        [lia | discriminate | assumption].
  - intros [(-> & ->) | Hst]; [reflexivity | apply decode_cobs_stuffing; assumption].
Qed.

(** ** The last block under COBS/R *)

Lemma slice_app_left (pre s : bytes) i j :
  j <= length pre -> slice (pre ++ s) i j = slice pre i j.
Proof.
  intros Hj. unfold slice. rewrite skipn_app, firstn_app, length_skipn.
  replace (j - i - (length pre - i)) with 0 by lia.
  simpl. apply app_nil_r.
Qed.

(** Arriving at a cursor depends on the bytes before the cursor only. *)
Lemma at_cursor_same_prefix mv idx out :
  at_cursor mv idx out ->
  forall pre s s', mv = pre ++ s -> idx <= length pre -> s' <> [] ->
  at_cursor (pre ++ s') idx out.
Proof.
  induction 1 as [Hlen|idx out c Hat IH Hnth Hcode Hzero Hlt];
    intros pre s s' -> Hidx Hs'.
  - apply at_cursor_start. rewrite length_app.
    destruct s'; [contradiction | simpl; lia].
  - assert (Hslice : slice (pre ++ s') (idx + 1) (idx + 1 + ord c - 1)
                     = slice (pre ++ s) (idx + 1) (idx + 1 + ord c - 1))
      by (rewrite !slice_app_left by assumption; reflexivity).
    rewrite <- Hslice.
    apply at_cursor_next.
    + apply (IH pre s s' eq_refl); [lia | assumption].
    + rewrite nth_error_app1 by lia. rewrite nth_error_app1 in Hnth by lia. assumption.
    + assumption.
    + rewrite Hslice. assumption.
    + rewrite length_app. destruct s'; [contradiction | simpl; lia].
Qed.

(** X5.  The reduced last block of COBS/R.  Let a buffer end with a block
    whose length code [c] is followed by the bytes [chunk] and a last byte
    [b] that is not below [c].  [decode_cobs] returns the output so far
    followed by [chunk] and [b]; and [decode_cobsr] returns the same payload
    for the buffer one byte shorter in which [b] stands in the place of the
    length code and is left out at the end. *)
Theorem cobsr_reduced_last_block (pre chunk out : bytes) (c b : byte) :
  at_cursor (pre ++ c :: chunk ++ [b]) (length pre) out ->
  ord c = length chunk + 2 ->
  contains_zero (chunk ++ [b]) = false ->
  ord c <= ord b ->
  decode_cobs (pre ++ c :: chunk ++ [b]) = Return (out ++ chunk ++ [b]) /\
  decode_cobsr (pre ++ b :: chunk) = Return (out ++ chunk ++ [b]).
Proof.
  intros Hat Hc Hzero Hcb. split.
  - rewrite (decode_cobs_at_cursor _ _ _ Hat), cobs_loop_iterate.
    assert (Hslice : slice (pre ++ c :: chunk ++ [b]) (length pre + 1)
                       (length pre + 1 + ord c - 1) = chunk ++ [b]).
    { unfold slice.
      replace (pre ++ c :: chunk ++ [b]) with ((pre ++ [c]) ++ chunk ++ [b])
        by (rewrite <- app_assoc; reflexivity).
      replace (length pre + 1) with (length (pre ++ [c]) + 0)
        by (rewrite length_app; simpl; lia).
      rewrite skipn_app_length. simpl skipn.
      apply firstn_all2. rewrite !length_app. simpl. lia. }
    rewrite (iterate_end_intro _ _ out c);
      rewrite ?Hslice; try assumption; try lia.
    + reflexivity.
    + replace (length pre) with (length pre + 0) by lia.
      apply nth_error_app_length.
    + rewrite !length_app. simpl. rewrite length_app. simpl. lia.
  - assert (Hat' : at_cursor (pre ++ b :: chunk) (length pre) out)
      by (apply (at_cursor_same_prefix _ _ _ Hat pre (c :: chunk ++ [b]));
          [reflexivity | lia | discriminate]).
    rewrite contains_zero_app in Hzero. apply orb_false_iff in Hzero.
    destruct Hzero as (Hchunk & Hb).
    assert (Hbnz : ord b <> 0).
    { intros Hz. apply ord_zero_iff in Hz. subst b. discriminate Hb. }
    rewrite (decode_cobsr_at_cursor _ _ _ Hat'), cobsr_loop_iterate.
    assert (Hslice : slice (pre ++ b :: chunk) (length pre + 1)
                       (length pre + 1 + ord b - 1) = chunk).
    { unfold slice.
      replace (pre ++ b :: chunk) with ((pre ++ [b]) ++ chunk)
        by (rewrite <- app_assoc; reflexivity).
      replace (length pre + 1) with (length (pre ++ [b]) + 0)
        by (rewrite length_app; simpl; lia).
      rewrite skipn_app_length. simpl skipn.
      apply firstn_all2. rewrite !length_app. simpl. lia. }
    rewrite (iterate_overrun_intro _ _ out b);
      rewrite ?Hslice; try assumption.
    + rewrite <- app_assoc. reflexivity.
    + replace (length pre) with (length pre + 0) by lia.
      apply nth_error_app_length.
    + rewrite length_app. simpl. lia.
Qed.

Lemma cobsr_reduced_last_block_witness :
  decode_cobs [x02; "a"%byte; x03; "b"%byte; "z"%byte]
  = Return ["a"%byte; x00; "b"%byte; "z"%byte] /\
  decode_cobsr [x02; "a"%byte; "z"%byte; "b"%byte]
  = Return ["a"%byte; x00; "b"%byte; "z"%byte].
Proof.
  refine (cobsr_reduced_last_block [x02; "a"%byte] ["b"%byte] ["a"%byte; x00]
            x03 "z"%byte _ eq_refl eq_refl _).
  - refine (at_cursor_next [x02; "a"%byte; x03; "b"%byte; "z"%byte] 0 [] x02
              (at_cursor_start _ _) eq_refl _ eq_refl _); simpl; lia.
  - simpl; lia.
Defined.

(* ===================================================================== *)
(** * Further properties of the accumulator *)
(* ===================================================================== *)

Lemma received_after_strip {Time} (self : CobsXDecoder Time) (frame : AnalyzerFrame Time) :
  (number_of_prefix_bytes_after_0_byte self <= length (received self) ->
   received (strip_prefix (record_start_time self frame))
   = skipn (number_of_prefix_bytes_after_0_byte self) (received self)) /\
  (length (received self) < number_of_prefix_bytes_after_0_byte self ->
   received (strip_prefix (record_start_time self frame)) = received self).
Proof.
  destruct (record_start_time_fields self frame) as (_ & Hk & Hr & _).
  destruct (received_strip_prefix (record_start_time self frame)) as (Hge & Hlt).
  rewrite Hk, Hr in Hge, Hlt. auto.
Qed.

(** At a delimiter, the buffer left after the prefix is stripped is the
    buffer the call decodes. *)
Lemma decodes_stripped_buffer {Time} (self : CobsXDecoder Time) (frame : AnalyzerFrame Time) :
  is_delimiter frame = true ->
  decodes_buffer self frame (received (strip_prefix (record_start_time self frame))).
Proof.
  intros Hd. destruct (decode_at_delimiter self frame Hd) as (_ & Hnone & Hsome).
  destruct (record_start_time_fields self frame) as (Hc & _).
  destruct (strip_prefix_fields (record_start_time self frame)) as (Hc' & _).
  unfold decodes_buffer.
  destruct (received (strip_prefix (record_start_time self frame))) as [|b r] eqn:Hr.
  - apply Hnone. reflexivity.
  - destruct Hsome as (fr & E & _ & _ & Hrep); [discriminate|].
    exists fr. split; [assumption|].
    rewrite (decode_bytes_class _ self) in Hrep by congruence. assumption.
Qed.


(** X8.  After any stream of input frames, the analyzer holds its settings
    unchanged, in [received] the data of the frames since the last delimiter,
    in order, in [frame_start_time] the start time of that delimiter (of the
    first frame when there is no delimiter), and in [frame_end_time] the end
    time of the last frame that was not a delimiter. *)
Theorem analyzer_state_after_stream (Time : Type) (cls : decoder_class) (prefix : nat)
    (frames : list (AnalyzerFrame Time)) :
  class (feed (init cls prefix) frames) = cls /\
  number_of_prefix_bytes_after_0_byte (feed (init cls prefix) frames) = prefix /\
  received (feed (init cls prefix) frames)
    = map (@data Time) (since_last_delimiter frames) /\
  frame_start_time (feed (init cls prefix) frames) =
    match last_delimiter frames with
    | Some d => Some (start_time d)
    | None => option_map (@start_time Time) (hd_error frames)
    end /\
  frame_end_time (feed (init cls prefix) frames) =
    option_map (@end_time Time) (last_buffered frames).
Proof.
  apply feed_state.
Qed.

(** X9.  At a delimiter that follows a stream, the frame returned is the
    decoding of the data received since the previous delimiter: without its
    first [prefix] entries when at least that many were received, as it is
    when fewer were received, and no frame when nothing is left. *)
Theorem frame_decodes_bytes_since_delimiter (Time : Type) (cls : decoder_class)
    (prefix : nat) (frames : list (AnalyzerFrame Time)) (d : AnalyzerFrame Time) :
  is_delimiter d = true ->
  (prefix <= length (since_last_delimiter frames) ->
   decodes_buffer (feed (init cls prefix) frames) d
     (skipn prefix (map (@data Time) (since_last_delimiter frames)))) /\
  (length (since_last_delimiter frames) < prefix ->
   decodes_buffer (feed (init cls prefix) frames) d
     (map (@data Time) (since_last_delimiter frames))).
Proof.
  intros Hd.
  destruct (feed_state cls prefix frames) as (_ & Hk & Hrecv & _).
  pose proof (decodes_stripped_buffer (feed (init cls prefix) frames) d Hd) as Hdec.
  destruct (received_after_strip (feed (init cls prefix) frames) d) as (Hge & Hlt).
  rewrite Hk, Hrecv, length_map in Hge, Hlt.
  split; intros Hlen.
  - rewrite <- (Hge Hlen). assumption.
  - rewrite <- (Hlt Hlen). assumption.
Qed.

Lemma frame_decodes_bytes_since_delimiter_witness :
  decodes_buffer
    (feed (init CobsDecoder 1)
       [mkAnalyzerFrame [x01] 0 1; mkAnalyzerFrame [x00] 2 3;
        mkAnalyzerFrame ["p"%byte] 4 5; mkAnalyzerFrame [x02] 6 7;
        mkAnalyzerFrame ["a"%byte] 8 9])
    (mkAnalyzerFrame [x00] 10 11)
    [[x02]; ["a"%byte]].
Proof.
  refine (proj1 (frame_decodes_bytes_since_delimiter nat CobsDecoder 1
            [mkAnalyzerFrame [x01] 0 1; mkAnalyzerFrame [x00] 2 3;
             mkAnalyzerFrame ["p"%byte] 4 5; mkAnalyzerFrame [x02] 6 7;
             mkAnalyzerFrame ["a"%byte] 8 9]
            (mkAnalyzerFrame [x00] 10 11) eq_refl) _).
  simpl. lia.
Defined.

(** ** Frames do not depend on what came before the delimiter *)

Lemma stream_after_delimiter {Time} (pre seg : list (AnalyzerFrame Time)) d0 :
  is_delimiter d0 = true ->
  Forall (fun f => is_delimiter f = false) seg ->
  since_last_delimiter (pre ++ d0 :: seg) = seg /\
  last_delimiter (pre ++ d0 :: seg) = Some d0 /\
  (seg <> [] -> last_buffered (pre ++ d0 :: seg) = hd_error (rev seg)).
Proof.
  intros Hd0. induction seg as [|f seg IH] using rev_ind; intros Hseg.
  - rewrite since_last_delimiter_app, last_delimiter_app, Hd0.
    repeat split. intros H; contradiction H; reflexivity.
  - apply Forall_app in Hseg. destruct Hseg as (Hseg & Hf).
    inversion Hf as [|? ? Hfd _]; subst.
    destruct (IH Hseg) as (Hs & Hl & _).
    replace (pre ++ d0 :: seg ++ [f]) with ((pre ++ d0 :: seg) ++ [f])
      by (rewrite <- app_assoc; reflexivity).
    rewrite since_last_delimiter_app, last_delimiter_app, last_buffered_app, Hfd, Hs, Hl.
    repeat split. intros _. rewrite rev_app_distr. reflexivity.
Qed.

Lemma analyzer_eq {Time} (a b : CobsXDecoder Time) :
  class a = class b ->
  number_of_prefix_bytes_after_0_byte a = number_of_prefix_bytes_after_0_byte b ->
  received a = received b ->
  frame_start_time a = frame_start_time b ->
  frame_end_time a = frame_end_time b ->
  a = b.
Proof.
  destruct a, b; simpl; intros; subst; reflexivity.
Qed.

(** X10.  What [decode] returns at a delimiter depends on the frames since
    the previous delimiter and on that delimiter only: two streams that
    differ in what came before it give the same result, be it a message, an
    error or nothing.  A frame that failed to decode, or any other earlier
    content, leaves no trace in later frames. *)
Theorem frame_independent_of_history (Time : Type) (cls : decoder_class) (prefix : nat)
    (pre1 pre2 seg : list (AnalyzerFrame Time)) (d0 d : AnalyzerFrame Time) :
  is_delimiter d0 = true ->
  is_delimiter d = true ->
  Forall (fun f => is_delimiter f = false) seg ->
  snd (decode (feed (init cls prefix) (pre1 ++ d0 :: seg)) d)
  = snd (decode (feed (init cls prefix) (pre2 ++ d0 :: seg)) d).
Proof.
  intros Hd0 Hd Hseg.
  destruct (feed_state cls prefix (pre1 ++ d0 :: seg)) as (Hc1 & Hk1 & Hr1 & Hs1 & He1).
  destruct (feed_state cls prefix (pre2 ++ d0 :: seg)) as (Hc2 & Hk2 & Hr2 & Hs2 & He2).
  destruct (stream_after_delimiter pre1 seg d0 Hd0 Hseg) as (Hsl1 & Hld1 & Hlb1).
  destruct (stream_after_delimiter pre2 seg d0 Hd0 Hseg) as (Hsl2 & Hld2 & Hlb2).
  rewrite Hsl1 in Hr1. rewrite Hsl2 in Hr2. rewrite Hld1 in Hs1. rewrite Hld2 in Hs2.
  destruct seg as [|f seg].
  - pose proof (decodes_stripped_buffer _ d Hd : decodes_buffer
                  (feed (init cls prefix) (pre1 ++ [d0])) d _) as H1.
    pose proof (decodes_stripped_buffer _ d Hd : decodes_buffer
                  (feed (init cls prefix) (pre2 ++ [d0])) d _) as H2.
    assert (E1 : received (strip_prefix (record_start_time
                   (feed (init cls prefix) (pre1 ++ [d0])) d)) = []).
    { destruct (record_start_time_fields (feed (init cls prefix) (pre1 ++ [d0])) d)
        as (_ & _ & Hr & _).
      unfold strip_prefix. rewrite Hr, Hr1.
      destruct (_ <=? _); simpl; rewrite ?skipn_nil; rewrite ?Hr, ?Hr1; reflexivity. }
    assert (E2 : received (strip_prefix (record_start_time
                   (feed (init cls prefix) (pre2 ++ [d0])) d)) = []).
    { destruct (record_start_time_fields (feed (init cls prefix) (pre2 ++ [d0])) d)
        as (_ & _ & Hr & _).
      unfold strip_prefix. rewrite Hr, Hr2.
      destruct (_ <=? _); simpl; rewrite ?skipn_nil; rewrite ?Hr, ?Hr2; reflexivity. }
    rewrite E1 in H1. rewrite E2 in H2. simpl in H1, H2. congruence.
  - rewrite Hlb1 in He1 by discriminate. rewrite Hlb2 in He2 by discriminate.
    f_equal. f_equal. apply analyzer_eq; congruence.
Qed.

Lemma frame_independent_of_history_witness :
  snd (decode (feed (init CobsDecoder 0)
                 ([mkAnalyzerFrame [x05] 0 1] ++ mkAnalyzerFrame [x00] 2 3
                  :: [mkAnalyzerFrame [x02] 4 5; mkAnalyzerFrame ["a"%byte] 6 7]))
         (mkAnalyzerFrame [x00] 8 9))
  = snd (decode (feed (init CobsDecoder 0)
                   ([] ++ mkAnalyzerFrame [x00] 2 3
                    :: [mkAnalyzerFrame [x02] 4 5; mkAnalyzerFrame ["a"%byte] 6 7]))
           (mkAnalyzerFrame [x00] 8 9)).
Proof.
  refine (frame_independent_of_history nat CobsDecoder 0
            [mkAnalyzerFrame [x05] 0 1] []
            [mkAnalyzerFrame [x02] 4 5; mkAnalyzerFrame ["a"%byte] 6 7]
            (mkAnalyzerFrame [x00] 2 3) (mkAnalyzerFrame [x00] 8 9)
            eq_refl eq_refl _).
  repeat constructor.
Defined.

(** X11.  A delimiter that comes right after a delimiter returns no frame,
    whatever the analyzer held before the first of the two. *)
Theorem delimiter_after_delimiter_returns_nothing (Time : Type)
    (self : CobsXDecoder Time) (d1 d2 : AnalyzerFrame Time) :
  is_delimiter d1 = true ->
  is_delimiter d2 = true ->
  snd (decode (fst (decode self d1)) d2) = inr None.
Proof.
  intros Hd1 Hd2.
  destruct (decode_at_delimiter self d1 Hd1) as (Hfst & _).
  destruct (decode_at_delimiter (fst (decode self d1)) d2 Hd2) as (_ & Hnone & _).
  apply Hnone.
  destruct (record_start_time_fields (fst (decode self d1)) d2) as (_ & _ & Hr & _).
  assert (Hempty : received (fst (decode self d1)) = []) by (rewrite Hfst; reflexivity).
  unfold strip_prefix. rewrite Hr, Hempty.
  destruct (_ <=? _); simpl; rewrite ?skipn_nil; rewrite ?Hr, ?Hempty; reflexivity.
Qed.

Lemma delimiter_after_delimiter_returns_nothing_witness :
  snd (decode (fst (decode (mkCobsXDecoder CobsDecoder 0 [[x02]; ["a"%byte]]
                              (Some 0) (Some 3))
                      (mkAnalyzerFrame [x00] 4 5)))
         (mkAnalyzerFrame [x00] 6 7))
  = @inr exn (option (ResultFrame nat)) None.
Proof.
  exact (delimiter_after_delimiter_returns_nothing nat
           (mkCobsXDecoder CobsDecoder 0 [[x02]; ["a"%byte]] (Some 0) (Some 3))
           (mkAnalyzerFrame [x00] 4 5) (mkAnalyzerFrame [x00] 6 7) eq_refl eq_refl).
Defined.

(** ** Streams of single bytes *)

Lemma since_last_delimiter_Forall {Time} (P : AnalyzerFrame Time -> Prop) frames :
  Forall P frames ->
  Forall (fun f => P f /\ is_delimiter f = false) (since_last_delimiter frames).
Proof.
  induction frames as [|f frames IH] using rev_ind; intros H.
  - constructor.
  - apply Forall_app in H. destruct H as (H & Hf). inversion Hf; subst.
    rewrite since_last_delimiter_app. destruct (is_delimiter f) eqn:Hd.
    + constructor.
    + apply Forall_app. split; [apply IH; assumption | repeat constructor; assumption].
Qed.

Lemma Forall_skipn_bytes (P : bytes -> Prop) n : forall l,
  Forall P l -> Forall P (skipn n l).
Proof.
  induction n as [|n IH]; intros l H; [assumption|].
  destruct l; [constructor | inversion H; subst; apply IH; assumption].
Qed.

Lemma contains_zero_concat (l : list bytes) :
  Forall (fun e => contains_zero e = false) l -> contains_zero (concat l) = false.
Proof.
  induction 1 as [|e l He _ IH]; [reflexivity|].
  simpl. rewrite contains_zero_app, He, IH. reflexivity.
Qed.

Lemma single_byte_data_no_zero {Time} (f : AnalyzerFrame Time) :
  length (data f) = 1 -> is_delimiter f = false -> contains_zero (data f) = false.
Proof.
  unfold is_delimiter, bytes_eqb. intros Hlen Hd.
  destruct (data f) as [|b [|b' r]]; try discriminate.
  destruct (list_eq_dec Byte.byte_eq_dec [b] [x00]) as [E|E]; [discriminate|].
  simpl. destruct (Byte.eqb x00 b) eqn:Hb; [|reflexivity].
  apply Byte.byte_dec_bl in Hb. subst b. contradiction E. reflexivity.
Qed.

(** X12.  When every input frame carries a single byte, the decoded buffer
    never holds a zero byte (a zero byte is a delimiter).  So the analyzer
    never returns the error "zero byte found in input": a returned frame is
    a message, or, for [CobsDecoder] only, the error "not enough input bytes
    for length code"; [CobsrDecoder] returns messages only. *)
Theorem single_byte_stream_frames (Time : Type) (cls : decoder_class) (prefix : nat)
    (frames : list (AnalyzerFrame Time)) (d : AnalyzerFrame Time)
    (fr : ResultFrame Time) :
  Forall (fun f => length (data f) = 1) frames ->
  is_delimiter d = true ->
  snd (decode (feed (init cls prefix) frames) d) = inr (Some fr) ->
  (exists m, result_type fr = "Message"%string /\ result_data fr = data_data m) \/
  (cls = CobsDecoder /\ result_type fr = "Error"%string /\
   result_data fr = data_error not_enough_input).
Proof.
  intros Hsingle Hd E.
  destruct (feed_state cls prefix frames) as (Hcls & _ & Hrecv & _).
  pose proof (decodes_stripped_buffer (feed (init cls prefix) frames) d Hd) as Hdec.
  assert (Hzero : contains_zero (concat (received (strip_prefix
                    (record_start_time (feed (init cls prefix) frames) d)))) = false).
  { apply contains_zero_concat.
    destruct (record_start_time_fields (feed (init cls prefix) frames) d)
      as (_ & _ & Hr & _).
    assert (Hall : Forall (fun e => contains_zero e = false)
                     (received (feed (init cls prefix) frames))).
    { rewrite Hrecv. apply Forall_map.
      apply (Forall_impl _ (P := fun f => length (data f) = 1 /\ is_delimiter f = false)).
      - intros f (Hl & Hnd). apply single_byte_data_no_zero; assumption.
      - apply since_last_delimiter_Forall. assumption. }
    unfold strip_prefix. rewrite Hr.
    destruct (_ <=? _); simpl; [apply Forall_skipn_bytes | rewrite Hr]; assumption. }
  unfold decodes_buffer in Hdec.
  destruct (received (strip_prefix (record_start_time (feed (init cls prefix) frames) d)))
    as [|b r]; [congruence|].
  destruct Hdec as (fr' & E' & Hrep). rewrite E' in E. inversion E; subst fr'.
  unfold decode_bytes in Hrep. rewrite Hcls in Hrep. destruct cls.
  - destruct (decode_cobs (concat (b :: r))) as [m|e] eqn:Hdecode.
    + left. exists m. exact Hrep.
    + right. destruct (decode_cobs_raises_one_of _ e Hdecode) as [-> | ->].
      * apply decode_cobs_zero_byte_iff in Hdecode. congruence.
      * simpl in Hrep. tauto.
  - destruct (decode_cobsr_no_zero_returns _ Hzero) as (m & Hm).
    rewrite Hm in Hrep. left. exists m. exact Hrep.
Qed.

Lemma single_byte_stream_frames_witness :
  (exists m, "Error"%string = "Message"%string /\ data_error not_enough_input = data_data m) \/
  (CobsDecoder = CobsDecoder /\ "Error"%string = "Error"%string /\
   data_error not_enough_input = data_error not_enough_input).
Proof.
  refine (single_byte_stream_frames nat CobsDecoder 0
            [mkAnalyzerFrame [x05] 0 1; mkAnalyzerFrame ["a"%byte] 2 3]
            (mkAnalyzerFrame [x00] 4 5)
            (mkResultFrame "Error" (Some 0) (Some 3) (data_error not_enough_input))
            _ eq_refl eq_refl).
  repeat constructor.
Defined.
